(** * The field-update kernels of the staggered-grid Navier-Stokes solver (uvp.c)

    A shallow embedding of [calculate_fg], [calculate_rs], [calculate_dt],
    [calculate_uv] and [calculate_T] together with the stencil operators they
    call, and the properties of these kernels.

    - A [double **] is a list of rows indexed by C [int]s, embedded as [Z]
      (the indices of an allocated grid stay far below [INT_MAX]); an access
      outside the allocated extent is not defined by C and is an explicit
      branch of every read and write.
    - The kernels mutate the arrays they are handed; the arrays live in a
      [state] and every kernel is a function [state -> option state].
    - The arithmetic of [double] is an interface, [Arith], instantiated with
      IEEE-754 binary64 (the primitive floats), which is what the compiled
      program computes with.  What is proved for every [Arith] holds
      whatever the arithmetic does; what depends on rounding, infinities or
      NaN is proved on binary64. *)

From Stdlib Require Import ZArith Lia Floats.
From stdpp Require Import base decidable option list functions.

(** ** Arithmetic of [double] *)

Class Arith (num : Type) := {
  c0 : num;                      (* the literal 0 *)
  c1 : num;                      (* the literal 1 *)
  c2 : num;                      (* the literal 2 *)
  nadd : num -> num -> num;
  nsub : num -> num -> num;
  nmul : num -> num -> num;
  ndiv : num -> num -> num;
  nopp : num -> num;             (* unary minus *)
  nabs : num -> num;             (* fabs of math.h *)
  nmin : num -> num -> num;      (* fmin of math.h *)
  nsqr : num -> num;             (* pow (x, 2) of math.h *)
  ngt : num -> num -> bool;      (* x > y *)
}.

Declare Scope num_scope.
Delimit Scope num_scope with num.
Notation "0" := c0 : num_scope.
Notation "1" := c1 : num_scope.
Notation "2" := c2 : num_scope.
Infix "+" := nadd : num_scope.
Infix "-" := nsub : num_scope.
Infix "*" := nmul : num_scope.
Infix "/" := ndiv : num_scope.
Notation "- x" := (nopp x) : num_scope.

(** IEEE-754 binary64.  [fmin] follows the C standard: a NaN argument is
    missing data and the other argument is returned.  [pow (x, 2)] is taken
    to be the correctly rounded square, [x * x]. *)
Definition fmin64 (x y : float) : float :=
  if PrimFloat.is_nan x then y
  else if PrimFloat.is_nan y then x
  else if PrimFloat.ltb x y then x else y.

#[global] Instance binary64 : Arith float := {|
  c0 := 0%float;
  c1 := 1%float;
  c2 := 2%float;
  nadd := PrimFloat.add;
  nsub := PrimFloat.sub;
  nmul := PrimFloat.mul;
  ndiv := PrimFloat.div;
  nopp := PrimFloat.opp;
  nabs := PrimFloat.abs;
  nmin := fmin64;
  nsqr := fun x => PrimFloat.mul x x;
  ngt := fun x y => PrimFloat.ltb y x;
|}.


(** ** Two-dimensional arrays *)

Abbreviation field A := (list (list A)).

Definition get {A} (M : field A) (i j : Z) : option A :=
  if decide (0 ≤ i ∧ 0 ≤ j)%Z
  then row ← M !! Z.to_nat i; row !! Z.to_nat j
  else None.

Definition put {A} (M : field A) (i j : Z) (x : A) : option (field A) :=
  match get M i j with
  | Some _ => Some (alter (fun row => <[Z.to_nat j := x]> row) (Z.to_nat i) M)
  | None => None
  end.

(** The extended domain [0..imax+1] x [0..jmax+1]. *)
Definition has_extent {A} (imax jmax : Z) (M : field A) : Prop :=
  length M = Z.to_nat (imax + 2) ∧
  Forall (fun row => length row = Z.to_nat (jmax + 2)) M.

Definition in_extent (imax jmax i j : Z) : Prop :=
  (0 ≤ i ≤ imax + 1 ∧ 0 ≤ j ≤ jmax + 1)%Z.

Definition const_field {A} (imax jmax : Z) (x : A) : field A :=
  replicate (Z.to_nat (imax + 2)) (replicate (Z.to_nat (jmax + 2)) x).

(** ** The cell-flag predicates

    The flag predicates [isFluid], [isObstacle], [isNeighbourFluid] and
    [isNeighbourObstacle] and the direction constants [RIGHT] and [TOP] are
    declared in headers (helper.h, boundary_val.h) that uvp.c includes; the
    kernels only call them on the [int] read from [Flags], so they are
    parameters of the embedding. *)

Class CellFlags := {
  direction : Type;
  RIGHT : direction;
  TOP : direction;
  isFluid : Z -> bool;
  isObstacle : Z -> bool;
  isNeighbourFluid : Z -> direction -> bool;
  isNeighbourObstacle : Z -> direction -> bool;
}.

(** ** Loops *)

Fixpoint foreach {S} (l : list Z) (body : Z -> S -> option S) (s : S) : option S :=
  match l with
  | [] => Some s
  | i :: l' => s' ← body i s; foreach l' body s'
  end.

(** [for (int i = lo; i < hi; i++) body] *)
Definition for_range {S} (lo hi : Z) (body : Z -> S -> option S) (s : S) : option S :=
  foreach (seqZ lo (hi - lo)) body s.

(** ** Memory *)

(** The [double **] parameters of the kernels. *)
Inductive array := U | V | F | G | P | RS | T.

#[global] Instance array_eq_dec : EqDecision array.
Proof. solve_decision. Defined.

Section Kernels.

Context {num : Type} {AR : Arith num} {CF : CellFlags}.

(** What a read outside the extent of an array yields.  C leaves it
    undefined: [fun _ _ _ => None] makes it an error, [Some x] stands for
    whatever the memory holds at that place. *)
Variable oob : array -> Z -> Z -> option num.

Record state := State {
  st_mem : array -> field num;   (* the contents of U, V, F, G, P, RS, T *)
  st_flags : field Z;            (* int **Flags *)
  st_dt : num;                   (* the double behind the pointer dt *)
}.

(** A C expression of type [double]: its value, unless evaluating it
    reads outside an array. *)
Definition expr := option num.

Definition lift1 (f : num -> num) (x : expr) : expr := f <$> x.

Definition lift2 {B} (f : num -> num -> B) (x y : expr) : option B :=
  match x, y with
  | Some a, Some b => Some (f a b)
  | _, _ => None
  end.

(** [A[i][j]] as an rvalue. *)
Definition rd (s : state) (A : array) (i j : Z) : expr :=
  match get (st_mem s A) i j with
  | Some x => Some x
  | None => oob A i j
  end.

(** [Flags[i][j]] *)
Definition flag (s : state) (i j : Z) : option Z := get (st_flags s) i j.

(** [A[i][j] = x] *)
Definition wr (A : array) (i j : Z) (x : num) (s : state) : option state :=
  M ← put (st_mem s A) i j x;
  Some (State (<[A := M]> (st_mem s)) (st_flags s) (st_dt s)).

(** [A[i][j] = e] *)
Definition assign (A : array) (i j : Z) (e : expr) (s : state) : option state :=
  x ← e; wr A i j x s.

(** The value stored at [(i, j)], for statements about states. *)
Definition val (s : state) (A : array) (i j : Z) : num :=
  default c0 (get (st_mem s A) i j).

Declare Scope expr_scope.
Delimit Scope expr_scope with expr.
Bind Scope expr_scope with expr.
Notation "# x" := (Some x : expr) (at level 9, x at level 9, format "# x") : expr_scope.
Notation "0" := (Some c0 : expr) : expr_scope.
Notation "1" := (Some c1 : expr) : expr_scope.
Notation "2" := (Some c2 : expr) : expr_scope.
Infix "+" := (lift2 nadd) : expr_scope.
Infix "-" := (lift2 nsub) : expr_scope.
Infix "*" := (lift2 nmul) : expr_scope.
Infix "/" := (lift2 ndiv) : expr_scope.
Infix ">" := (lift2 ngt) : expr_scope.
Notation "- x" := (lift1 nopp x) : expr_scope.

Definition fabs (x : expr) : expr := lift1 nabs x.
Definition fmin (x y : expr) : expr := lift2 nmin x y.
(** [pow (x, 2)], the only exponent the kernels use. *)
Definition pow2 (x : expr) : expr := lift1 nsqr x.

Local Open Scope expr_scope.

(** ** Stencil operators *)

Definition secondDerivativeDx (s : state) (A : array) (i j : Z) (h : num) : expr :=
  (rd s A (i - 1) j - 2 * rd s A i j + rd s A (i + 1) j) / (#h * #h).

Definition secondDerivativeDy (s : state) (A : array) (i j : Z) (h : num) : expr :=
  (rd s A i (j - 1) - 2 * rd s A i j + rd s A i (j + 1)) / (#h * #h).

Definition productDerivativeDx (s : state) (A B : array) (i j : Z) (h alpha : num) : expr :=
  1 / #h *
    ((rd s A i j + rd s A i (j + 1)) / 2 * (rd s B i j + rd s B (i + 1) j) / 2
     - (rd s A (i - 1) j + rd s A (i - 1) (j + 1)) / 2 * (rd s B (i - 1) j + rd s B i j) / 2)
  + #alpha / #h *
    (fabs (rd s A i j + rd s A i (j + 1)) / 2 * (rd s B i j - rd s B (i + 1) j) / 2
     - fabs (rd s A (i - 1) j + rd s A (i - 1) (j + 1)) / 2 * (rd s B (i - 1) j - rd s B i j) / 2).

Definition productDerivativeDy (s : state) (A B : array) (i j : Z) (h alpha : num) : expr :=
  1 / #h *
    ((rd s B i j + rd s B (i + 1) j) / 2 * (rd s A i j + rd s A i (j + 1)) / 2
     - (rd s B i (j - 1) + rd s B (i + 1) (j - 1)) / 2 * (rd s A i (j - 1) + rd s A i j) / 2)
  + #alpha / #h *
    (fabs (rd s B i j + rd s B (i + 1) j) / 2 * (rd s A i j - rd s A i (j + 1)) / 2
     - fabs (rd s B i (j - 1) + rd s B (i + 1) (j - 1)) / 2 * (rd s A i (j - 1) - rd s A i j) / 2).

Definition squareDerivativeDx (s : state) (A : array) (i j : Z) (h alpha : num) : expr :=
  1 / #h *
    (pow2 ((rd s A i j + rd s A (i + 1) j) / 2)
     - pow2 ((rd s A (i - 1) j + rd s A i j) / 2))
  + #alpha / #h *
    (fabs (rd s A i j + rd s A (i + 1) j) / 2 * (rd s A i j - rd s A (i + 1) j) / 2
     - fabs (rd s A (i - 1) j + rd s A i j) / 2 * (rd s A (i - 1) j - rd s A i j) / 2).

Definition squareDerivativeDy (s : state) (A : array) (i j : Z) (h alpha : num) : expr :=
  1 / #h *
    (pow2 ((rd s A i j + rd s A i (j + 1)) / 2)
     - pow2 ((rd s A i (j - 1) + rd s A i j) / 2))
  + #alpha / #h *
    (fabs (rd s A i j + rd s A i (j + 1)) / 2 * (rd s A i j - rd s A i (j + 1)) / 2
     - fabs (rd s A i (j - 1) + rd s A i j) / 2 * (rd s A i (j - 1) - rd s A i j) / 2).

(** ** The momentum kernel *)

Definition computeF (Re GX alpha beta dt dx dy : num) (s : state) (u v t : array) (i j : Z) : expr :=
  rd s u i j
  + #dt *
    (1 / #Re * (secondDerivativeDx s u i j dx + secondDerivativeDy s u i j dy)
     - squareDerivativeDx s u i j dx alpha
     - productDerivativeDy s u v i j dy alpha
     + (1 - #beta * rd s t i j) * #GX).

Definition computeG (Re GY alpha beta dt dx dy : num) (s : state) (u v t : array) (i j : Z) : expr :=
  rd s v i j
  + #dt *
    (1 / #Re * (secondDerivativeDx s v i j dx + secondDerivativeDy s v i j dy)
     - productDerivativeDx s u v i j dx alpha
     - squareDerivativeDy s v i j dy alpha
     + (1 - #beta * rd s t i j) * #GY).

Definition calculate_fg (Re GX GY alpha beta dt dx dy : num) (imax jmax : Z)
    (s : state) : option state :=
  s ← for_range 1 (imax + 1) (fun i s =>
         s ← assign G i 0 (rd s V i 0) s;
         assign G i jmax (rd s V i jmax) s) s;
  s ← for_range 1 (jmax + 1) (fun j s =>
         s ← assign F 0 j (rd s U 0 j) s;
         assign F imax j (rd s U imax j) s) s;
  s ← for_range 1 imax (fun i =>
         for_range 1 (jmax + 1) (fun j s =>
           cell ← flag s i j;
           if isObstacle cell || isNeighbourObstacle cell RIGHT
           then assign F i j (rd s U i j) s
           else assign F i j (computeF Re GX alpha beta dt dx dy s U V T i j) s)) s;
  for_range 1 (imax + 1) (fun i =>
    for_range 1 jmax (fun j s =>
      cell ← flag s i j;
      if isObstacle cell || isNeighbourObstacle cell TOP
      then assign G i j (rd s V i j) s
      else assign G i j (computeG Re GY alpha beta dt dx dy s U V T i j) s)) s.

(** ** The right-hand side of the pressure equation *)

Definition calculate_rs (dt dx dy : num) (imax jmax : Z) (s : state) : option state :=
  for_range 1 (imax + 1) (fun i =>
    for_range 1 (jmax + 1) (fun j s =>
      cell ← flag s i j;
      if isFluid cell
      then assign RS i j
             (((rd s F i j - rd s F (i - 1) j) / #dx
               + (rd s G i j - rd s G i (j - 1)) / #dy) / #dt) s
      else Some s)) s.

(** ** The time step *)

(** The scan of [calculate_dt] for [u_max] and [v_max]. *)
Definition max_velocities (imax jmax : Z) (s : state) : option (num * num) :=
  for_range 0 (imax + 1) (fun i =>
    for_range 0 (jmax + 1) (fun j '(u_max, v_max) =>
      bu ← fabs (rd s U i j) > #u_max;
      u_max ← (if bu : bool then fabs (rd s U i j) else #u_max);
      bv ← fabs (rd s V i j) > #v_max;
      v_max ← (if bv : bool then fabs (rd s V i j) else #v_max);
      Some (u_max, v_max))) (c0, c0).

Definition calculate_dt (Re Pr tau dx dy : num) (imax jmax : Z) (s : state) : option state :=
  '(u_max, v_max) ← max_velocities imax jmax s;
  minimum ← fmin (#Re * #Pr / 2 / (1 / pow2 #dx + 1 / pow2 #dy))
                 (fmin (#dx / #u_max) (#dy / #v_max));
  x ← #tau * #minimum;
  Some (State (st_mem s) (st_flags s) x).

(** ** The velocity correction *)

Definition calculate_uv (dt dx dy : num) (imax jmax : Z) (s : state) : option state :=
  s ← for_range 1 imax (fun i =>
         for_range 1 (jmax + 1) (fun j s =>
           cell ← flag s i j;
           if isFluid cell && isNeighbourFluid cell RIGHT
           then assign U i j
                  (rd s F i j - #dt / #dx * (rd s P (i + 1) j - rd s P i j)) s
           else Some s)) s;
  for_range 1 (imax + 1) (fun i =>
    for_range 1 jmax (fun j s =>
      cell ← flag s i j;
      if isFluid cell && isNeighbourFluid cell TOP
      then assign V i j
             (rd s G i j - #dt / #dy * (rd s P i (j + 1) - rd s P i j)) s
      else Some s)) s.

(** ** The temperature *)

(** The right-hand side of the assignment to [T[i][j]] in [calculate_T]. *)
Definition T_update (Re Pr dt dx dy alpha : num) (s : state) (i j : Z) : expr :=
  rd s T i j + #dt *
    (- (1) / #dx *
       (rd s U i j * (rd s T i j + rd s T (i + 1) j) / 2
        - rd s U (i - 1) j * (rd s T (i - 1) j + rd s T i j) / 2)
     - #alpha * 1 / #dx *
       (fabs (rd s U i j) * (rd s T i j + rd s T (i + 1) j) / 2
        - fabs (rd s U (i - 1) j) * (rd s T (i - 1) j + rd s T i j) / 2)
     - 1 / #dy *
       (rd s V i j * (rd s T i j + rd s T i (j + 1)) / 2
        - rd s V i (j - 1) * (rd s T i (j - 1) + rd s T i j) / 2)
     - #alpha * 1 / #dy *
       (fabs (rd s V i j) * (rd s T i j + rd s T i (j + 1)) / 2
        - fabs (rd s V i (j - 1)) * (rd s T i (j - 1) + rd s T i j) / 2)
     + 1 / (#Re * #Pr) *
       ((rd s T (i + 1) j - 2 * rd s T i j + rd s T (i - 1) j) / (#dx * #dx)
        + (rd s T i (j + 1) - 2 * rd s T i j + rd s T i (j - 1)) / (#dy * #dy))).

Definition calculate_T (Re Pr dt dx dy alpha : num) (imax jmax : Z) (s : state) : option state :=
  for_range 0 (imax + 1) (fun i =>
    for_range 0 (jmax + 1) (fun j s =>
      assign T i j (T_update Re Pr dt dx dy alpha s i j) s)) s.

(** The double-buffered explicit scheme the documentation compares
    [calculate_T] with: every new value is computed from the snapshot [s0]
    taken before the sweep. *)
Definition calculate_T_buffered (Re Pr dt dx dy alpha : num) (imax jmax : Z)
    (s0 : state) : option state :=
  for_range 0 (imax + 1) (fun i =>
    for_range 0 (jmax + 1) (fun j s =>
      assign T i j (T_update Re Pr dt dx dy alpha s0 i j) s)) s0.

(** ** Values

    The stencils and update formulas once more, on the values stored in a
    state: what the expressions above evaluate to when every cell they read
    is allocated. *)

Local Close Scope expr_scope.
Local Open Scope num_scope.

Definition secondDerivativeDx_v (s : state) (A : array) (i j : Z) (h : num) : num :=
  (val s A (i - 1) j - 2 * val s A i j + val s A (i + 1) j) / (h * h).

Definition secondDerivativeDy_v (s : state) (A : array) (i j : Z) (h : num) : num :=
  (val s A i (j - 1) - 2 * val s A i j + val s A i (j + 1)) / (h * h).

Definition productDerivativeDx_v (s : state) (A B : array) (i j : Z) (h alpha : num) : num :=
  1 / h *
    ((val s A i j + val s A i (j + 1)) / 2 * (val s B i j + val s B (i + 1) j) / 2
     - (val s A (i - 1) j + val s A (i - 1) (j + 1)) / 2 * (val s B (i - 1) j + val s B i j) / 2)
  + alpha / h *
    (nabs (val s A i j + val s A i (j + 1)) / 2 * (val s B i j - val s B (i + 1) j) / 2
     - nabs (val s A (i - 1) j + val s A (i - 1) (j + 1)) / 2 * (val s B (i - 1) j - val s B i j) / 2).

Definition productDerivativeDy_v (s : state) (A B : array) (i j : Z) (h alpha : num) : num :=
  1 / h *
    ((val s B i j + val s B (i + 1) j) / 2 * (val s A i j + val s A i (j + 1)) / 2
     - (val s B i (j - 1) + val s B (i + 1) (j - 1)) / 2 * (val s A i (j - 1) + val s A i j) / 2)
  + alpha / h *
    (nabs (val s B i j + val s B (i + 1) j) / 2 * (val s A i j - val s A i (j + 1)) / 2
     - nabs (val s B i (j - 1) + val s B (i + 1) (j - 1)) / 2 * (val s A i (j - 1) - val s A i j) / 2).

Definition squareDerivativeDx_v (s : state) (A : array) (i j : Z) (h alpha : num) : num :=
  1 / h *
    (nsqr ((val s A i j + val s A (i + 1) j) / 2)
     - nsqr ((val s A (i - 1) j + val s A i j) / 2))
  + alpha / h *
    (nabs (val s A i j + val s A (i + 1) j) / 2 * (val s A i j - val s A (i + 1) j) / 2
     - nabs (val s A (i - 1) j + val s A i j) / 2 * (val s A (i - 1) j - val s A i j) / 2).

Definition squareDerivativeDy_v (s : state) (A : array) (i j : Z) (h alpha : num) : num :=
  1 / h *
    (nsqr ((val s A i j + val s A i (j + 1)) / 2)
     - nsqr ((val s A i (j - 1) + val s A i j) / 2))
  + alpha / h *
    (nabs (val s A i j + val s A i (j + 1)) / 2 * (val s A i j - val s A i (j + 1)) / 2
     - nabs (val s A i (j - 1) + val s A i j) / 2 * (val s A i (j - 1) - val s A i j) / 2).

Definition computeF_v (Re GX alpha beta dt dx dy : num) (s : state) (u v t : array) (i j : Z) : num :=
  val s u i j
  + dt *
    (1 / Re * (secondDerivativeDx_v s u i j dx + secondDerivativeDy_v s u i j dy)
     - squareDerivativeDx_v s u i j dx alpha
     - productDerivativeDy_v s u v i j dy alpha
     + (1 - beta * val s t i j) * GX).

Definition computeG_v (Re GY alpha beta dt dx dy : num) (s : state) (u v t : array) (i j : Z) : num :=
  val s v i j
  + dt *
    (1 / Re * (secondDerivativeDx_v s v i j dx + secondDerivativeDy_v s v i j dy)
     - productDerivativeDx_v s u v i j dx alpha
     - squareDerivativeDy_v s v i j dy alpha
     + (1 - beta * val s t i j) * GY).

(** The update of [calculate_T] on the nine values it reads: the velocities
    at the cell ([u_c], [v_c]) and at its west and south neighbours ([u_w],
    [v_s]), and the temperatures at the cell ([t_c]) and at its east, west,
    north and south neighbours. *)
Definition T_cell_v (Re Pr dt dx dy alpha : num)
    (u_c u_w v_c v_s t_c t_e t_w t_n t_s : num) : num :=
  t_c + dt *
    (- (1) / dx *
       (u_c * (t_c + t_e) / 2
        - u_w * (t_w + t_c) / 2)
     - alpha * 1 / dx *
       (nabs u_c * (t_c + t_e) / 2
        - nabs u_w * (t_w + t_c) / 2)
     - 1 / dy *
       (v_c * (t_c + t_n) / 2
        - v_s * (t_s + t_c) / 2)
     - alpha * 1 / dy *
       (nabs v_c * (t_c + t_n) / 2
        - nabs v_s * (t_s + t_c) / 2)
     + 1 / (Re * Pr) *
       ((t_e - 2 * t_c + t_w) / (dx * dx)
        + (t_n - 2 * t_c + t_s) / (dy * dy))).

Definition T_update_v (Re Pr dt dx dy alpha : num) (s : state) (i j : Z) : num :=
  T_cell_v Re Pr dt dx dy alpha
    (val s U i j) (val s U (i - 1) j) (val s V i j) (val s V i (j - 1))
    (val s T i j) (val s T (i + 1) j) (val s T (i - 1) j)
    (val s T i (j + 1)) (val s T i (j - 1)).

(** The right-hand side of [calculate_rs] at [(i, j)]. *)
Definition rs_v (dt dx dy : num) (s : state) (i j : Z) : num :=
  ((val s F i j - val s F (i - 1) j) / dx
   + (val s G i j - val s G i (j - 1)) / dy) / dt.

(** The corrected velocities of [calculate_uv] at [(i, j)]. *)
Definition u_v (dt dx : num) (s : state) (i j : Z) : num :=
  val s F i j - dt / dx * (val s P (i + 1) j - val s P i j).

Definition v_v (dt dy : num) (s : state) (i j : Z) : num :=
  val s G i j - dt / dy * (val s P i (j + 1) - val s P i j).

(** The three bounds of [calculate_dt] and the time step they give. *)
Definition dt_v (Re Pr tau dx dy u_max v_max : num) : num :=
  tau * nmin (Re * Pr / 2 / (1 / nsqr dx + 1 / nsqr dy))
             (nmin (dx / u_max) (dy / v_max)).

Local Close Scope num_scope.

(** ** Well-formed states *)

(** The content of [A[i][j]], if the cell is allocated. *)
Definition cell (s : state) (A : array) (i j : Z) : option num :=
  get (st_mem s A) i j.

(** All arrays have the extent [0..imax+1] x [0..jmax+1]. *)
Definition wf (imax jmax : Z) (s : state) : Prop :=
  (forall A, has_extent imax jmax (st_mem s A)) /\
  has_extent imax jmax (st_flags s).

Local Open Scope Z_scope.

(** [s'] differs from [s] at most in the arrays [As]: the flags, the time
    step and every other array are the same. *)
Definition frame (As : list array) (s s' : state) : Prop :=
  st_flags s' = st_flags s ∧ st_dt s' = st_dt s ∧
  ∀ B, B ∉ As → st_mem s' B = st_mem s B.

(** The flag of a cell, for statements about states. *)
Definition flag_v (s : state) (i j : Z) : Z := default 0 (get (st_flags s) i j).

(** Out-of-range reads yield a value. *)
Definition lenient : Prop := ∀ A i j, is_Some (oob A i j).

(** The cells [[ilo, ihi) x [jlo, jhi)] a double loop visits. *)
Definition swept (ilo ihi jlo jhi i j : Z) : Prop :=
  ilo ≤ i < ihi ∧ jlo ≤ j < jhi.

#[global] Instance swept_dec ilo ihi jlo jhi i j : Decision (swept ilo ihi jlo jhi i j).
Proof. unfold swept. apply _. Defined.

(** What [calculate_fg] stores in [F[i][j]] and [G[i][j]] inside its
    iteration ranges. *)
Definition F_v (Re GX alpha beta dt dx dy : num) (s : state) (i j : Z) : num :=
  if isObstacle (flag_v s i j) || isNeighbourObstacle (flag_v s i j) RIGHT
  then val s U i j
  else computeF_v Re GX alpha beta dt dx dy s U V T i j.

Definition G_v (Re GY alpha beta dt dx dy : num) (s : state) (i j : Z) : num :=
  if isObstacle (flag_v s i j) || isNeighbourObstacle (flag_v s i j) TOP
  then val s V i j
  else computeG_v Re GY alpha beta dt dx dy s U V T i j.

(** The running maximum of [calculate_dt], the cells it scans in the order
    it scans them, and the maximum it ends with. *)
Definition max_step (m a : num) : num := if ngt (nabs a) m then nabs a else m.

Definition scanned (imax jmax : Z) : list (Z * Z) :=
  i ← seqZ 0 (imax + 1); j ← seqZ 0 (jmax + 1); [(i, j)].

Definition max_abs (s : state) (A : array) (imax jmax : Z) : num :=
  foldl (λ m '(i, j), max_step m (val s A i j)) c0 (scanned imax jmax).

End Kernels.

(** * Example data *)

Local Open Scope Z_scope.

(** A bit encoding of the flags: bit 0 says that the cell is fluid, bit 1
    that its right neighbour is, bit 2 that its top neighbour is. *)
Definition bit_flags : CellFlags := {|
  direction := Z;
  RIGHT := 1;
  TOP := 2;
  isFluid c := Z.testbit c 0;
  isObstacle c := negb (Z.testbit c 0);
  isNeighbourFluid c d := Z.testbit c d;
  isNeighbourObstacle c d := negb (Z.testbit c d);
|}.

(** A read outside an array is an error. *)
Definition strict {num} : array → Z → Z → option num := λ _ _ _, None.

(** The memory around the arrays holds zeros. *)
Definition zeros : array → Z → Z → option float := λ _ _ _, Some 0%float.

Definition mk_state {num} (u v f g p rs t : field num) (fl : field Z) (dt : num)
    : state :=
  State (λ A, match A with
              | U => u | V => v | F => f | G => g | P => p | RS => rs | T => t
              end) fl dt.

(** A 2 x 2 grid with its boundary layer; the cell [(2, 1)] is an obstacle,
    the right neighbour of [(1, 2)] and the top neighbour of [(2, 2)] are
    obstacles. *)
Definition ex_flags : field Z :=
  [[7; 7; 7; 7]; [7; 7; 5; 7]; [7; 6; 3; 7]; [7; 7; 7; 7]].

Definition ex : @state float := mk_state
  [[1; 0.5; -0.5; 0]; [0.5; 1; -1; 0.5]; [0; -0.5; 0.5; 1]; [0; 0; 0; 0]]%float
  [[1; 0; 0.5; 0]; [-0.5; 0.5; 1; 0]; [0.5; -1; 0.5; 0]; [0; 0; 0; 0]]%float
  [[0; 1; 2; 3]; [1; 3; 3; 4]; [4; 3; 5; 5]; [3; 4; 5; 6]]%float
  [[2; 1; 2; 0]; [1; 2; 4; 0]; [2; 1; 0; 3]; [3; 2; 1; 0]]%float
  [[0; 1; 2; 3]; [1; 2; 3; 4]; [2; 3; 5; 5]; [3; 4; 5; 6]]%float
  (const_field 2 2 7%float)
  [[1; 2; 3; 4]; [2; 4; 1; 2]; [3; 1; 2; 1]; [4; 3; 2; 1]]%float
  ex_flags
  1%float.


(** The two states hold the same arrays, flags and time step. *)
Definition same_state {num} (s s' : @state num) : Prop :=
  st_flags s' = st_flags s ∧ st_dt s' = st_dt s ∧ ∀ A, st_mem s' A = st_mem s A.

(** The grid of [ex] with other contents in [F] and [G]. *)
Definition ex_other_fg : @state float :=
  State (<[F := const_field 2 2 8%float]> (<[G := const_field 2 2 9%float]> (st_mem ex)))
        (st_flags ex) (st_dt ex).

(** The velocities of [ex] with other flags, pressure and time step. *)
Definition ex_other_flags : @state float :=
  State (<[P := const_field 2 2 8%float]> (st_mem ex)) (const_field 2 2 0) 5%float.

(** The grid of [ex] with nothing but NaN in [U]. *)
Definition ex_nan : @state float :=
  State (<[U := const_field 2 2 nan]> (st_mem ex)) (st_flags ex) (st_dt ex).


(** * Properties *)

(** ** Arrays *)

Lemma get_neg {A} (M : field A) i j : (i < 0 ∨ j < 0) → get M i j = None.
Proof. intros ?. unfold get. case_decide; [lia|done]. Qed.

Lemma get_in_extent {A} imax jmax (M : field A) i j :
  has_extent imax jmax M → in_extent imax jmax i j → is_Some (get M i j).
Proof.
  intros [Hl Hr] [Hi Hj]. unfold get. rewrite decide_True by lia.
  destruct (lookup_lt_is_Some_2 M (Z.to_nat i)) as [row Hrow]; [lia|].
  rewrite Hrow. simpl.
  apply lookup_lt_is_Some_2.
  rewrite Forall_lookup in Hr. rewrite (Hr _ _ Hrow). lia.
Qed.

Lemma get_put {A} (M M' : field A) i j x i' j' :
  put M i j x = Some M' →
  get M' i' j' = if decide (i' = i ∧ j' = j) then Some x else get M i' j'.
Proof.
  unfold put. destruct (get M i j) as [y|] eqn:Hy; [|done].
  intros [= <-]. revert Hy. unfold get.
  case_decide as Hij; [|done].
  destruct (M !! Z.to_nat i) as [row|] eqn:Hrow; [|done]. simpl. intros Hy.
  destruct (decide (i' = i ∧ j' = j)) as [[-> ->]|Hne].
  - rewrite decide_True by done.
    rewrite list_lookup_alter_eq, Hrow. simpl.
    apply list_lookup_insert_eq. by eapply lookup_lt_Some.
  - case_decide as H0; [|done].
    destruct (decide (Z.to_nat i' = Z.to_nat i)) as [Hi|Hi].
    + rewrite Hi, list_lookup_alter_eq, Hrow. simpl.
      apply list_lookup_insert_ne. lia.
    + by rewrite list_lookup_alter_ne.
Qed.

Lemma put_extent {A} imax jmax (M M' : field A) i j x :
  put M i j x = Some M' → has_extent imax jmax M → has_extent imax jmax M'.
Proof.
  unfold put. destruct (get M i j); [|done]. intros [= <-] [Hl Hr].
  split; [by rewrite length_alter|].
  apply Forall_alter; [done|]. intros row ? ?. by rewrite length_insert.
Qed.

Lemma put_in_extent {A} imax jmax (M : field A) i j x :
  has_extent imax jmax M → in_extent imax jmax i j → is_Some (put M i j x).
Proof.
  intros HM Hij. destruct (get_in_extent _ _ _ _ _ HM Hij) as [y Hy].
  unfold put. rewrite Hy. eauto.
Qed.

(** ** Loops *)

Lemma foreach_app {S} (l1 l2 : list Z) (body : Z → S → option S) s :
  foreach (l1 ++ l2) body s = s' ← foreach l1 body s; foreach l2 body s'.
Proof.
  revert s. induction l1 as [|i l1 IH]; intros s; simpl; [done|].
  destruct (body i s); simpl; [apply IH|done].
Qed.

Lemma for_range_empty {S} lo hi (body : Z → S → option S) s :
  hi ≤ lo → for_range lo hi body s = Some s.
Proof.
  intros ?. unfold for_range, seqZ.
  replace (Z.to_nat (hi - lo)) with 0%nat by lia. done.
Qed.

Lemma for_range_step {S} lo hi (body : Z → S → option S) s :
  lo < hi → for_range lo hi body s = s' ← body lo s; for_range (lo + 1) hi body s'.
Proof.
  intros ?. unfold for_range. rewrite seqZ_cons by lia. simpl.
  by replace (Z.pred (hi - lo)) with (hi - (lo + 1)) by lia.
Qed.

(** The invariant rule: [Inv i] holds before iteration [i]. *)
Lemma for_range_inv {S} (Inv : Z → S → Prop) lo hi (body : Z → S → option S) s :
  lo ≤ hi →
  Inv lo s →
  (∀ i s, lo ≤ i < hi → Inv i s → ∃ s', body i s = Some s' ∧ Inv (i + 1) s') →
  ∃ s', for_range lo hi body s = Some s' ∧ Inv hi s'.
Proof.
  intros Hle H0 Hstep.
  remember (Z.to_nat (hi - lo)) as n eqn:Hn.
  revert lo s Hle H0 Hstep Hn. induction n as [|n IH]; intros lo s Hle H0 Hstep Hn.
  - assert (lo = hi) as -> by lia. exists s. by rewrite for_range_empty.
  - rewrite for_range_step by lia.
    destruct (Hstep lo s) as (s1 & -> & H1); [lia|done|]. simpl.
    apply IH; [lia|done| |lia].
    intros i s2 ? ?. apply Hstep; [lia|done].
Qed.

(** Two nested loops: [Inv i j] holds before the iteration at [(i, j)]. *)
Lemma for_range2_inv {S} (Inv : Z → Z → S → Prop) ilo ihi jlo jhi
    (body : Z → Z → S → option S) s :
  ilo ≤ ihi → jlo ≤ jhi →
  Inv ilo jlo s →
  (∀ i j s, ilo ≤ i < ihi → jlo ≤ j < jhi → Inv i j s →
     ∃ s', body i j s = Some s' ∧ Inv i (j + 1) s') →
  (∀ i s, ilo ≤ i < ihi → Inv i jhi s → Inv (i + 1) jlo s) →
  ∃ s', for_range ilo ihi (λ i, for_range jlo jhi (body i)) s = Some s' ∧ Inv ihi jlo s'.
Proof.
  intros Hi Hj H0 Hstep Hrow.
  apply (for_range_inv (λ i, Inv i jlo)); [done|done|].
  intros i s1 ? H1.
  destruct (for_range_inv (Inv i) jlo jhi (body i) s1) as (s2 & Hs2 & H2); [done|done| |].
  - intros j s2 ? ?. by apply Hstep.
  - exists s2. split; [done|]. by apply Hrow.
Qed.

(** ** States *)

(** Membership in a list of array names, and case analysis on the cells a
    write touches. *)
Ltac notin :=
  let H := fresh in
  intros H; repeat (apply elem_of_cons in H as [H|H]; [done|]);
  by apply elem_of_nil in H.

Ltac cases_cells :=
  repeat case_decide; destruct_and?; simplify_eq; try done; try (exfalso; lia).

Section Properties.

Context {num : Type} {AR : Arith num} {CF : CellFlags}.
Variable oob : array → Z → Z → option num.

Implicit Types (s : @state num) (A B : array) (i j imax jmax : Z) (x : num).

Lemma frame_refl As s : frame As s s.
Proof. by repeat split. Qed.

Lemma frame_trans As s1 s2 s3 : frame As s1 s2 → frame As s2 s3 → frame As s1 s3.
Proof.
  intros (?&?&H12) (?&?&H23). repeat split; [congruence..|].
  intros B HB. rewrite H23, H12; done.
Qed.

Lemma frame_weaken As Bs s s' : As ⊆ Bs → frame As s s' → frame Bs s s'.
Proof.
  intros Hsub (?&?&H). repeat split; [done..|].
  intros B HB. apply H. intros ?. apply HB. by apply Hsub.
Qed.

Lemma frame_val As s s' B i j : frame As s s' → B ∉ As → val s' B i j = val s B i j.
Proof. intros (_&_&H) HB. unfold val. by rewrite H. Qed.

Lemma frame_cell As s s' B i j : frame As s s' → B ∉ As → cell s' B i j = cell s B i j.
Proof. intros (_&_&H) HB. unfold cell. by rewrite H. Qed.

Lemma frame_flag As s s' i j : frame As s s' → flag s' i j = flag s i j.
Proof. intros (H&_). unfold flag. by rewrite H. Qed.

Lemma cell_in imax jmax s A i j :
  wf imax jmax s → in_extent imax jmax i j → cell s A i j = Some (val s A i j).
Proof.
  intros [Hs _] Hij. unfold cell, val.
  destruct (get_in_extent _ _ _ _ _ (Hs A) Hij) as [x ->]. done.
Qed.

Lemma rd_in imax jmax s A i j :
  wf imax jmax s → in_extent imax jmax i j → rd oob s A i j = Some (val s A i j).
Proof.
  intros Hs Hij. unfold rd. fold (cell s A i j). by erewrite cell_in.
Qed.

Lemma flag_in imax jmax s i j :
  wf imax jmax s → in_extent imax jmax i j → flag s i j = Some (flag_v s i j).
Proof.
  intros [_ Hs] Hij. unfold flag, flag_v.
  destruct (get_in_extent _ _ _ _ _ Hs Hij) as [x ->]. done.
Qed.

Lemma wr_in imax jmax s A i j x :
  wf imax jmax s → in_extent imax jmax i j →
  ∃ s', wr A i j x s = Some s' ∧ wf imax jmax s' ∧ frame [A] s s' ∧
        ∀ i' j', cell s' A i' j' =
                 if decide (i' = i ∧ j' = j) then Some x else cell s A i' j'.
Proof.
  intros [Hs Hf] Hij. unfold wr.
  destruct (put_in_extent _ _ _ _ _ x (Hs A) Hij) as [M HM]. rewrite HM. simpl.
  eexists. split; [done|]. split; [|split].
  - split; [|done]. intros B. simpl.
    destruct (decide (A = B)) as [->|].
    + rewrite fn_lookup_insert. by eapply put_extent.
    + rewrite fn_lookup_insert_ne by done. apply Hs.
  - repeat split. intros B HB. simpl.
    rewrite fn_lookup_insert_ne; [done|]. intros ->. apply HB. constructor.
  - intros i' j'. unfold cell. simpl. rewrite fn_lookup_insert.
    by apply get_put.
Qed.

(** ** Evaluation of the stencils *)

Ltac eval_reads Hs :=
  repeat (erewrite (rd_in _ _ _ _ _ _ Hs) by (unfold in_extent; lia));
  reflexivity.

Lemma computeF_in imax jmax Re GX alpha beta dt dx dy s i j :
  wf imax jmax s → 1 ≤ i ≤ imax → 1 ≤ j ≤ jmax →
  computeF oob Re GX alpha beta dt dx dy s U V T i j
  = Some (computeF_v Re GX alpha beta dt dx dy s U V T i j).
Proof.
  intros Hs ? ?.
  unfold computeF, secondDerivativeDx, secondDerivativeDy, squareDerivativeDx,
    productDerivativeDy.
  eval_reads Hs.
Qed.

Lemma computeG_in imax jmax Re GY alpha beta dt dx dy s i j :
  wf imax jmax s → 1 ≤ i ≤ imax → 1 ≤ j ≤ jmax →
  computeG oob Re GY alpha beta dt dx dy s U V T i j
  = Some (computeG_v Re GY alpha beta dt dx dy s U V T i j).
Proof.
  intros Hs ? ?.
  unfold computeG, secondDerivativeDx, secondDerivativeDy, squareDerivativeDy,
    productDerivativeDx.
  eval_reads Hs.
Qed.

Lemma T_update_in imax jmax Re Pr dt dx dy alpha s i j :
  wf imax jmax s → 1 ≤ i ≤ imax → 1 ≤ j ≤ jmax →
  T_update oob Re Pr dt dx dy alpha s i j
  = Some (T_update_v Re Pr dt dx dy alpha s i j).
Proof. intros Hs ? ?. unfold T_update. eval_reads Hs. Qed.

(** ** Sweeps that store a value per cell

    A double loop whose body at [(i, j)] stores [g i j] in [X[i][j]] when
    [c i j] holds and does nothing otherwise, where [c] and [g] depend on
    nothing the sweep changes. *)

Lemma sweep_spec X imax jmax ilo ihi jlo jhi (c : Z → Z → bool) (g : Z → Z → num)
    (body : Z → Z → state → option state) s0 :
  wf imax jmax s0 →
  0 ≤ ilo ≤ ihi → ihi ≤ imax + 2 → 0 ≤ jlo ≤ jhi → jhi ≤ jmax + 2 →
  (∀ i j s, swept ilo ihi jlo jhi i j → wf imax jmax s → frame [X] s0 s →
     body i j s = if c i j then wr X i j (g i j) s else Some s) →
  ∃ s', for_range ilo ihi (λ i, for_range jlo jhi (body i)) s0 = Some s' ∧
        wf imax jmax s' ∧ frame [X] s0 s' ∧
        ∀ i j, cell s' X i j =
               if decide (swept ilo ihi jlo jhi i j)
               then (if c i j then Some (g i j) else cell s0 X i j)
               else cell s0 X i j.
Proof.
  intros Hs0 Hi Hi' Hj Hj' Hbody.
  pose (Inv := λ (i j : Z) (s : state),
    wf imax jmax s ∧ frame [X] s0 s ∧
    ∀ i' j', cell s X i' j' =
      if decide (swept ilo ihi jlo jhi i' j' ∧ (i' < i ∨ (i' = i ∧ j' < j)))
      then (if c i' j' then Some (g i' j') else cell s0 X i' j')
      else cell s0 X i' j').
  destruct (for_range2_inv Inv ilo ihi jlo jhi body s0) as (s' & Hs' & Hw & Hf & Hc);
    [lia|lia| | | |].
  - split; [done|]. split; [apply frame_refl|].
    intros i' j'. rewrite decide_False; [done|]. unfold swept. lia.
  - intros i j s ? ? (Hw & Hf & Hc).
    rewrite Hbody by (unfold swept; done).
    destruct (c i j) eqn:Hcij.
    + destruct (wr_in imax jmax s X i j (g i j)) as (s1 & -> & Hw1 & Hf1 & Hc1);
        [done|unfold in_extent; lia|].
      exists s1. split; [done|]. split; [done|]. split; [by eapply frame_trans|].
      intros i' j'. rewrite Hc1, Hc.
      destruct (decide (i' = i ∧ j' = j)) as [[-> ->]|Hne].
      * rewrite decide_True by (unfold swept; lia). by rewrite Hcij.
      * destruct (decide (swept ilo ihi jlo jhi i' j' ∧ (i' < i ∨ i' = i ∧ j' < j))).
        -- rewrite decide_True by (unfold swept in *; lia). done.
        -- rewrite decide_False by (unfold swept in *; lia). done.
    + exists s. split; [done|]. split; [done|]. split; [done|].
      intros i' j'. rewrite Hc.
      destruct (decide (i' = i ∧ j' = j)) as [[-> ->]|Hne].
      * rewrite decide_False by lia.
        destruct (decide _); [by rewrite Hcij|done].
      * destruct (decide (swept ilo ihi jlo jhi i' j' ∧ (i' < i ∨ i' = i ∧ j' < j))).
        -- rewrite decide_True by (unfold swept in *; lia). done.
        -- rewrite decide_False by (unfold swept in *; lia). done.
  - intros i s ? (Hw & Hf & Hc). split; [done|]. split; [done|].
    intros i' j'. rewrite Hc.
    destruct (decide (swept ilo ihi jlo jhi i' j' ∧ (i' < i ∨ i' = i ∧ j' < jhi))) as [H1|H1].
    + rewrite decide_True; [done|]. unfold swept in *. lia.
    + rewrite decide_False; [done|]. unfold swept in *. lia.
  - exists s'. split; [done|]. split; [done|]. split; [done|].
    intros i j. rewrite Hc.
    destruct (decide (swept ilo ihi jlo jhi i j)) as [H1|H1].
    + rewrite decide_True; [done|]. unfold swept in *. lia.
    + rewrite decide_False; [done|]. tauto.
Qed.

(** ** [calculate_fg] *)

Lemma assign_in imax jmax s0 s A B i j i0 j0 :
  wf imax jmax s → frame [A] s0 s → B ≠ A →
  in_extent imax jmax i j → in_extent imax jmax i0 j0 →
  ∃ s', assign A i j (rd oob s B i0 j0) s = Some s' ∧ wf imax jmax s' ∧
        frame [A] s0 s' ∧
        ∀ i' j', cell s' A i' j' =
                 if decide (i' = i ∧ j' = j) then Some (val s0 B i0 j0)
                 else cell s A i' j'.
Proof.
  intros Hw Hf HB Hij Hij0. unfold assign.
  erewrite rd_in by done. simpl.
  destruct (wr_in imax jmax s A i j (val s B i0 j0)) as (s' & -> & ? & ? & Hc);
    [done..|].
  exists s'. split; [done|]. split; [done|]. split; [by eapply frame_trans|].
  intros i' j'. rewrite Hc.
  rewrite (frame_val [A] s0 s); [done..|].
  intros ?%list_elem_of_singleton. done.
Qed.

Lemma fg_boundary_G imax jmax s0 :
  wf imax jmax s0 → 1 ≤ imax → 1 ≤ jmax →
  ∃ s', for_range 1 (imax + 1) (λ i s,
          s ← assign G i 0 (rd oob s V i 0) s;
          assign G i jmax (rd oob s V i jmax) s) s0 = Some s' ∧
        wf imax jmax s' ∧ frame [G] s0 s' ∧
        ∀ i j, cell s' G i j =
               if decide (1 ≤ i ≤ imax ∧ (j = 0 ∨ j = jmax))
               then Some (val s0 V i j) else cell s0 G i j.
Proof.
  intros Hs0 Hi Hj.
  pose (Inv := λ (i : Z) (s : state),
    wf imax jmax s ∧ frame [G] s0 s ∧
    ∀ i' j', cell s G i' j' =
      if decide (1 ≤ i' < i ∧ (j' = 0 ∨ j' = jmax))
      then Some (val s0 V i' j') else cell s0 G i' j').
  destruct (for_range_inv Inv 1 (imax + 1) (λ i s,
          s ← assign G i 0 (rd oob s V i 0) s;
          assign G i jmax (rd oob s V i jmax) s) s0) as (s' & Hs' & Hw & Hf & Hc);
    [lia| | |].
  - split; [done|]. split; [apply frame_refl|]. intros i' j'. cases_cells.
  - intros i s ? (Hw & Hf & Hc).
    destruct (assign_in imax jmax s0 s G V i 0 i 0) as (s1 & -> & Hw1 & Hf1 & Hc1);
      [done|done|done|unfold in_extent; lia..|]. simpl.
    destruct (assign_in imax jmax s0 s1 G V i jmax i jmax) as (s2 & -> & Hw2 & Hf2 & Hc2);
      [done|done|done|unfold in_extent; lia..|].
    exists s2. split; [done|]. split; [done|]. split; [done|].
    intros i' j'. rewrite Hc2, Hc1, Hc. cases_cells.
  - exists s'. split; [done|]. split; [done|]. split; [done|].
    intros i j. rewrite Hc. cases_cells.
Qed.

Lemma fg_boundary_F imax jmax s0 :
  wf imax jmax s0 → 1 ≤ imax → 1 ≤ jmax →
  ∃ s', for_range 1 (jmax + 1) (λ j s,
          s ← assign F 0 j (rd oob s U 0 j) s;
          assign F imax j (rd oob s U imax j) s) s0 = Some s' ∧
        wf imax jmax s' ∧ frame [F] s0 s' ∧
        ∀ i j, cell s' F i j =
               if decide ((i = 0 ∨ i = imax) ∧ 1 ≤ j ≤ jmax)
               then Some (val s0 U i j) else cell s0 F i j.
Proof.
  intros Hs0 Hi Hj.
  pose (Inv := λ (j : Z) (s : state),
    wf imax jmax s ∧ frame [F] s0 s ∧
    ∀ i' j', cell s F i' j' =
      if decide ((i' = 0 ∨ i' = imax) ∧ 1 ≤ j' < j)
      then Some (val s0 U i' j') else cell s0 F i' j').
  destruct (for_range_inv Inv 1 (jmax + 1) (λ j s,
          s ← assign F 0 j (rd oob s U 0 j) s;
          assign F imax j (rd oob s U imax j) s) s0) as (s' & Hs' & Hw & Hf & Hc);
    [lia| | |].
  - split; [done|]. split; [apply frame_refl|]. intros i' j'. cases_cells.
  - intros j s ? (Hw & Hf & Hc).
    destruct (assign_in imax jmax s0 s F U 0 j 0 j) as (s1 & -> & Hw1 & Hf1 & Hc1);
      [done|done|done|unfold in_extent; lia..|]. simpl.
    destruct (assign_in imax jmax s0 s1 F U imax j imax j) as (s2 & -> & Hw2 & Hf2 & Hc2);
      [done|done|done|unfold in_extent; lia..|].
    exists s2. split; [done|]. split; [done|]. split; [done|].
    intros i' j'. rewrite Hc2, Hc1, Hc. cases_cells.
  - exists s'. split; [done|]. split; [done|]. split; [done|].
    intros i j. rewrite Hc. cases_cells.
Qed.

Lemma computeF_v_frame As Re GX alpha beta dt dx dy s0 s i j :
  frame As s0 s → U ∉ As → V ∉ As → T ∉ As →
  computeF_v Re GX alpha beta dt dx dy s U V T i j
  = computeF_v Re GX alpha beta dt dx dy s0 U V T i j.
Proof.
  intros (_ & _ & Hm) HU HV HT.
  unfold computeF_v, secondDerivativeDx_v, secondDerivativeDy_v,
    squareDerivativeDx_v, productDerivativeDy_v, val.
  by rewrite (Hm U HU), (Hm V HV), (Hm T HT).
Qed.

Lemma computeG_v_frame As Re GY alpha beta dt dx dy s0 s i j :
  frame As s0 s → U ∉ As → V ∉ As → T ∉ As →
  computeG_v Re GY alpha beta dt dx dy s U V T i j
  = computeG_v Re GY alpha beta dt dx dy s0 U V T i j.
Proof.
  intros (_ & _ & Hm) HU HV HT.
  unfold computeG_v, secondDerivativeDx_v, secondDerivativeDy_v,
    squareDerivativeDy_v, productDerivativeDx_v, val.
  by rewrite (Hm U HU), (Hm V HV), (Hm T HT).
Qed.

Lemma flag_v_frame As s0 s i j : frame As s0 s → flag_v s i j = flag_v s0 i j.
Proof. intros (Hf & _). unfold flag_v. by rewrite Hf. Qed.

Lemma F_v_frame As Re GX alpha beta dt dx dy s0 s i j :
  frame As s0 s → U ∉ As → V ∉ As → T ∉ As →
  F_v Re GX alpha beta dt dx dy s i j = F_v Re GX alpha beta dt dx dy s0 i j.
Proof.
  intros Hf ? ? ?. unfold F_v.
  by rewrite (flag_v_frame As s0 s), (frame_val As s0 s), (computeF_v_frame As _ _ _ _ _ _ _ s0 s).
Qed.

Lemma G_v_frame As Re GY alpha beta dt dx dy s0 s i j :
  frame As s0 s → U ∉ As → V ∉ As → T ∉ As →
  G_v Re GY alpha beta dt dx dy s i j = G_v Re GY alpha beta dt dx dy s0 i j.
Proof.
  intros Hf ? ? ?. unfold G_v.
  by rewrite (flag_v_frame As s0 s), (frame_val As s0 s), (computeG_v_frame As _ _ _ _ _ _ _ s0 s).
Qed.

Lemma fg_interior_F imax jmax Re GX alpha beta dt dx dy s0 :
  wf imax jmax s0 → 1 ≤ imax → 1 ≤ jmax →
  ∃ s', for_range 1 imax (λ i,
          for_range 1 (jmax + 1) (λ j s,
            cell ← flag s i j;
            if isObstacle cell || isNeighbourObstacle cell RIGHT
            then assign F i j (rd oob s U i j) s
            else assign F i j (computeF oob Re GX alpha beta dt dx dy s U V T i j) s)) s0
        = Some s' ∧
        wf imax jmax s' ∧ frame [F] s0 s' ∧
        ∀ i j, cell s' F i j =
               if decide (swept 1 imax 1 (jmax + 1) i j)
               then Some (F_v Re GX alpha beta dt dx dy s0 i j) else cell s0 F i j.
Proof.
  intros Hs0 Hi Hj.
  edestruct (sweep_spec F imax jmax 1 imax 1 (jmax + 1) (λ _ _, true)
               (F_v Re GX alpha beta dt dx dy s0)) as (s' & Hs' & Hw & Hf & Hc);
    [done|lia..| |].
  2:{ exists s'. split; [exact Hs'|]. split; [done|]. split; [done|].
      intros i j. rewrite Hc. by case_decide. }
  intros i j s [? ?] Hw Hf. simpl.
  erewrite flag_in by (done || unfold in_extent; lia). simpl.
  rewrite <- (F_v_frame [F] _ _ _ _ _ _ _ s0 s) by (done || notin).
  unfold F_v.
  destruct (_ || _).
  - unfold assign. erewrite rd_in by (done || unfold in_extent; lia). done.
  - unfold assign. erewrite computeF_in by (done || lia). done.
Qed.

Lemma fg_interior_G imax jmax Re GY alpha beta dt dx dy s0 :
  wf imax jmax s0 → 1 ≤ imax → 1 ≤ jmax →
  ∃ s', for_range 1 (imax + 1) (λ i,
          for_range 1 jmax (λ j s,
            cell ← flag s i j;
            if isObstacle cell || isNeighbourObstacle cell TOP
            then assign G i j (rd oob s V i j) s
            else assign G i j (computeG oob Re GY alpha beta dt dx dy s U V T i j) s)) s0
        = Some s' ∧
        wf imax jmax s' ∧ frame [G] s0 s' ∧
        ∀ i j, cell s' G i j =
               if decide (swept 1 (imax + 1) 1 jmax i j)
               then Some (G_v Re GY alpha beta dt dx dy s0 i j) else cell s0 G i j.
Proof.
  intros Hs0 Hi Hj.
  edestruct (sweep_spec G imax jmax 1 (imax + 1) 1 jmax (λ _ _, true)
               (G_v Re GY alpha beta dt dx dy s0)) as (s' & Hs' & Hw & Hf & Hc);
    [done|lia..| |].
  2:{ exists s'. split; [exact Hs'|]. split; [done|]. split; [done|].
      intros i j. rewrite Hc. by case_decide. }
  intros i j s [? ?] Hw Hf. simpl.
  erewrite flag_in by (done || unfold in_extent; lia). simpl.
  rewrite <- (G_v_frame [G] _ _ _ _ _ _ _ s0 s) by (done || notin).
  unfold G_v.
  destruct (_ || _).
  - unfold assign. erewrite rd_in by (done || unfold in_extent; lia). done.
  - unfold assign. erewrite computeG_in by (done || lia). done.
Qed.

(** What [calculate_fg] leaves in every cell of [F] and [G]. *)
Lemma calculate_fg_spec imax jmax Re GX GY alpha beta dt dx dy s0 :
  wf imax jmax s0 → 1 ≤ imax → 1 ≤ jmax →
  ∃ s', calculate_fg oob Re GX GY alpha beta dt dx dy imax jmax s0 = Some s' ∧
        wf imax jmax s' ∧ frame [F; G] s0 s' ∧
        (∀ i j, cell s' F i j =
           if decide (swept 1 imax 1 (jmax + 1) i j)
           then Some (F_v Re GX alpha beta dt dx dy s0 i j)
           else if decide ((i = 0 ∨ i = imax) ∧ 1 ≤ j ≤ jmax)
           then Some (val s0 U i j)
           else cell s0 F i j) ∧
        (∀ i j, cell s' G i j =
           if decide (swept 1 (imax + 1) 1 jmax i j)
           then Some (G_v Re GY alpha beta dt dx dy s0 i j)
           else if decide (1 ≤ i ≤ imax ∧ (j = 0 ∨ j = jmax))
           then Some (val s0 V i j)
           else cell s0 G i j).
Proof.
  intros Hs0 Hi Hj. unfold calculate_fg.
  destruct (fg_boundary_G imax jmax s0) as (s1 & -> & Hw1 & Hf1 & Hc1); [done..|].
  simpl.
  destruct (fg_boundary_F imax jmax s1) as (s2 & -> & Hw2 & Hf2 & Hc2); [done..|].
  simpl.
  destruct (fg_interior_F imax jmax Re GX alpha beta dt dx dy s2)
    as (s3 & -> & Hw3 & Hf3 & Hc3); [done..|].
  simpl.
  destruct (fg_interior_G imax jmax Re GY alpha beta dt dx dy s3)
    as (s4 & -> & Hw4 & Hf4 & Hc4); [done..|].
  assert (frame [F; G] s0 s1) as Hg1
    by (eapply frame_weaken; [|done]; intros ? ->%list_elem_of_singleton; repeat constructor).
  assert (frame [F; G] s1 s2) as Hg2
    by (eapply frame_weaken; [|done]; intros ? ->%list_elem_of_singleton; repeat constructor).
  assert (frame [F; G] s2 s3) as Hg3
    by (eapply frame_weaken; [|done]; intros ? ->%list_elem_of_singleton; repeat constructor).
  assert (frame [F; G] s3 s4) as Hg4
    by (eapply frame_weaken; [|done]; intros ? ->%list_elem_of_singleton; repeat constructor).
  assert (frame [F; G] s0 s2) as Hg02 by (by eapply frame_trans).
  assert (frame [F; G] s0 s3) as Hg03 by (by eapply frame_trans).
  exists s4. split; [done|]. split; [done|]. split; [by eapply frame_trans|]. split.
  - intros i j.
    rewrite (frame_cell [G] s3 s4) by (done || notin).
    rewrite Hc3, Hc2.
    rewrite (frame_cell [G] s0 s1) by (done || notin).
    rewrite (frame_val [F; G] s0 s1) by (done || notin).
    rewrite (F_v_frame [F; G] _ _ _ _ _ _ _ s0 s2) by (done || notin).
    done.
  - intros i j.
    rewrite Hc4.
    rewrite (frame_cell [F] s2 s3) by (done || notin).
    rewrite (frame_cell [F] s1 s2) by (done || notin).
    rewrite Hc1.
    rewrite (G_v_frame [F; G] _ _ _ _ _ _ _ s0 s3) by (done || notin).
    done.
Qed.

(** ** [calculate_rs] *)

Lemma rs_v_frame As dt dx dy s0 s i j :
  frame As s0 s → F ∉ As → G ∉ As → rs_v dt dx dy s i j = rs_v dt dx dy s0 i j.
Proof.
  intros (_ & _ & Hm) HF HG. unfold rs_v, val. by rewrite (Hm F HF), (Hm G HG).
Qed.

Lemma calculate_rs_spec imax jmax dt dx dy s0 :
  wf imax jmax s0 → 1 ≤ imax → 1 ≤ jmax →
  ∃ s', calculate_rs oob dt dx dy imax jmax s0 = Some s' ∧
        wf imax jmax s' ∧ frame [RS] s0 s' ∧
        ∀ i j, cell s' RS i j =
               if decide (swept 1 (imax + 1) 1 (jmax + 1) i j)
               then (if isFluid (flag_v s0 i j) then Some (rs_v dt dx dy s0 i j)
                     else cell s0 RS i j)
               else cell s0 RS i j.
Proof.
  intros Hs0 Hi Hj. unfold calculate_rs.
  apply (sweep_spec RS imax jmax 1 (imax + 1) 1 (jmax + 1)
           (λ i j, isFluid (flag_v s0 i j)) (rs_v dt dx dy s0)); [done|lia..|].
  intros i j s [? ?] Hw Hf.
  erewrite flag_in by (done || unfold in_extent; lia). simpl.
  rewrite (flag_v_frame [RS] s0 s) by done.
  destruct (isFluid _); [|done].
  rewrite <- (rs_v_frame [RS] _ _ _ s0 s) by (done || notin).
  unfold assign.
  repeat (erewrite (rd_in _ _ _ _ _ _ Hw) by (unfold in_extent; lia)).
  done.
Qed.

(** ** [calculate_uv] *)

Lemma u_v_frame As dt dx s0 s i j :
  frame As s0 s → F ∉ As → P ∉ As → u_v dt dx s i j = u_v dt dx s0 i j.
Proof.
  intros (_ & _ & Hm) HF HP. unfold u_v, val. by rewrite (Hm F HF), (Hm P HP).
Qed.

Lemma v_v_frame As dt dy s0 s i j :
  frame As s0 s → G ∉ As → P ∉ As → v_v dt dy s i j = v_v dt dy s0 i j.
Proof.
  intros (_ & _ & Hm) HG HP. unfold v_v, val. by rewrite (Hm G HG), (Hm P HP).
Qed.

Lemma calculate_uv_spec imax jmax dt dx dy s0 :
  wf imax jmax s0 → 1 ≤ imax → 1 ≤ jmax →
  ∃ s', calculate_uv oob dt dx dy imax jmax s0 = Some s' ∧
        wf imax jmax s' ∧ frame [U; V] s0 s' ∧
        (∀ i j, cell s' U i j =
           if decide (swept 1 imax 1 (jmax + 1) i j)
           then (if isFluid (flag_v s0 i j) && isNeighbourFluid (flag_v s0 i j) RIGHT
                 then Some (u_v dt dx s0 i j) else cell s0 U i j)
           else cell s0 U i j) ∧
        (∀ i j, cell s' V i j =
           if decide (swept 1 (imax + 1) 1 jmax i j)
           then (if isFluid (flag_v s0 i j) && isNeighbourFluid (flag_v s0 i j) TOP
                 then Some (v_v dt dy s0 i j) else cell s0 V i j)
           else cell s0 V i j).
Proof.
  intros Hs0 Hi Hj. unfold calculate_uv.
  edestruct (sweep_spec U imax jmax 1 imax 1 (jmax + 1)
           (λ i j, isFluid (flag_v s0 i j) && isNeighbourFluid (flag_v s0 i j) RIGHT)
           (u_v dt dx s0)) as (s1 & -> & Hw1 & Hf1 & Hc1); [done|lia..| |].
  { intros i j s [? ?] Hw Hf.
    erewrite flag_in by (done || unfold in_extent; lia). simpl.
    rewrite (flag_v_frame [U] s0 s) by done.
    destruct (_ && _); [|done].
    rewrite <- (u_v_frame [U] _ _ s0 s) by (done || notin).
    unfold assign.
    repeat (erewrite (rd_in _ _ _ _ _ _ Hw) by (unfold in_extent; lia)).
    done. }
  simpl.
  edestruct (λ body, sweep_spec V imax jmax 1 (imax + 1) 1 jmax
           (λ i j, isFluid (flag_v s0 i j) && isNeighbourFluid (flag_v s0 i j) TOP)
           (v_v dt dy s0) body s1) as (s2 & -> & Hw2 & Hf2 & Hc2); [done|lia..| |].
  { intros i j s [? ?] Hw Hf.
    erewrite flag_in by (done || unfold in_extent; lia). simpl.
    rewrite (flag_v_frame [V] s1 s), (flag_v_frame [U] s0 s1) by done.
    destruct (_ && _); [|done].
    rewrite <- (v_v_frame [U] _ _ s0 s1) by (done || notin).
    rewrite <- (v_v_frame [V] _ _ s1 s) by (done || notin).
    unfold assign.
    repeat (erewrite (rd_in _ _ _ _ _ _ Hw) by (unfold in_extent; lia)).
    done. }
  assert (frame [U; V] s0 s1) as Hg1
    by (eapply frame_weaken; [|done]; intros ? ->%list_elem_of_singleton; repeat constructor).
  assert (frame [U; V] s1 s2) as Hg2
    by (eapply frame_weaken; [|done]; intros ? ->%list_elem_of_singleton; repeat constructor).
  exists s2. split; [done|]. split; [done|]. split; [by eapply frame_trans|]. split.
  - intros i j. rewrite (frame_cell [V] s1 s2) by (done || notin). apply Hc1.
  - intros i j. rewrite Hc2. by rewrite (frame_cell [U] s0 s1) by (done || notin).
Qed.

(** ** [calculate_dt] *)

Lemma foreach_foldl {S} (l : list Z) (body : Z → S → option S) (f : S → Z → S) st :
  (∀ i st, i ∈ l → body i st = Some (f st i)) →
  foreach l body st = Some (foldl f st l).
Proof.
  revert st. induction l as [|i l IH]; intros st Hb; simpl; [done|].
  rewrite Hb by constructor. simpl. apply IH.
  intros i' st' ?. apply Hb. by constructor.
Qed.

Lemma elem_of_scanned imax jmax i j :
  (i, j) ∈ scanned imax jmax ↔ 0 ≤ i ≤ imax ∧ 0 ≤ j ≤ jmax.
Proof.
  unfold scanned. rewrite list_elem_of_bind. split.
  - intros (i' & (j' & Hj%list_elem_of_singleton & Hj')%list_elem_of_bind & Hi').
    apply elem_of_seqZ in Hi', Hj'. simplify_eq. lia.
  - intros [? ?]. exists i. split; [|apply elem_of_seqZ; lia].
    apply list_elem_of_bind. exists j. split; [by apply list_elem_of_singleton|].
    apply elem_of_seqZ; lia.
Qed.

Lemma max_velocities_spec imax jmax s :
  wf imax jmax s → 0 ≤ imax → 0 ≤ jmax →
  max_velocities oob imax jmax s
  = Some (max_abs s U imax jmax, max_abs s V imax jmax).
Proof.
  intros Hw Hi Hj. unfold max_velocities, for_range.
  rewrite !Z.sub_0_r.
  erewrite (foreach_foldl _ _ (λ st i,
     foldl (λ '(um, vm) j, (max_step um (val s U i j), max_step vm (val s V i j)))
           st (seqZ 0 (jmax + 1)))).
  2:{ intros i st Hin%elem_of_seqZ.
      apply foreach_foldl. intros j [um vm] Hjn%elem_of_seqZ.
      repeat (erewrite (rd_in _ _ _ _ _ _ Hw) by (unfold in_extent; lia)).
      simpl. unfold max_step.
      destruct (ngt (nabs (val s U i j)) um), (ngt (nabs (val s V i j)) vm); done. }
  f_equal. unfold max_abs, scanned.
  set (inner := λ (st : num * num) (i : Z),
     foldl (λ '(um, vm) j, (max_step um (val s U i j), max_step vm (val s V i j)))
           st (seqZ 0 (jmax + 1))).
  assert (∀ A i cols (st : num * num) (pick : num * num → num),
    (pick = fst ∧ A = U) ∨ (pick = snd ∧ A = V) →
    pick (foldl (λ '(um, vm) j,
            (max_step um (val s U i j), max_step vm (val s V i j))) st cols)
    = foldl (λ m '(i, j), max_step m (val s A i j)) (pick st)
        (cols ≫= λ j, [(i, j)])) as Hinner.
  { intros A i cols. induction cols as [|j cols IH]; intros [um vm] pick Hp; [done|].
    simpl. rewrite IH by done. by destruct Hp as [[-> ->]|[-> ->]]. }
  assert (∀ A rows (st : num * num) (pick : num * num → num),
    (pick = fst ∧ A = U) ∨ (pick = snd ∧ A = V) →
    pick (foldl inner st rows)
    = foldl (λ m '(i, j), max_step m (val s A i j)) (pick st)
        (rows ≫= λ i, seqZ 0 (jmax + 1) ≫= λ j, [(i, j)])) as Houter.
  { intros A rows. induction rows as [|i rows IH]; intros st pick Hp; [done|].
    simpl. rewrite foldl_app, IH by done. f_equal. by apply Hinner. }
  rewrite (surjective_pairing (foldl _ _ _)).
  rewrite (Houter U _ _ fst), (Houter V _ _ snd) by auto. done.
Qed.

Lemma calculate_dt_spec imax jmax Re Pr tau dx dy s :
  wf imax jmax s → 0 ≤ imax → 0 ≤ jmax →
  calculate_dt oob Re Pr tau dx dy imax jmax s
  = Some (State (st_mem s) (st_flags s)
            (dt_v Re Pr tau dx dy (max_abs s U imax jmax) (max_abs s V imax jmax))).
Proof.
  intros Hw Hi Hj. unfold calculate_dt.
  by rewrite max_velocities_spec.
Qed.

(** A scan that never sees an absolute value above zero ends with zero. *)
Lemma max_abs_zero s A imax jmax :
  (∀ i j, 0 ≤ i ≤ imax → 0 ≤ j ≤ jmax → ngt (nabs (val s A i j)) c0 = false) →
  max_abs s A imax jmax = c0.
Proof.
  intros Hz. unfold max_abs.
  assert (∀ l : list (Z * Z), (∀ i j, (i, j) ∈ l → (i, j) ∈ scanned imax jmax) →
            foldl (λ m '(i, j), max_step m (val s A i j)) c0 l = c0) as Hfold.
  { induction l as [|[i j] l IH]; intros Hl; simpl; [done|].
    assert ((i, j) ∈ scanned imax jmax) as [? ?]%elem_of_scanned
      by (apply Hl; constructor).
    unfold max_step at 2. rewrite Hz by done.
    apply IH. intros i' j' ?. apply Hl. by constructor. }
  by apply Hfold.
Qed.

(** ** [calculate_T] *)

Lemma lift2_None_r {Y : Type} (f : num → num → Y) (x : expr) : lift2 f x None = None.
Proof. by destruct x. Qed.

Lemma val_cell s s' A i j : cell s' A i j = cell s A i j → val s' A i j = val s A i j.
Proof. unfold val, cell. by intros ->. Qed.

(** With out-of-range reads an error, the sweep fails at its first cell:
    [(0, 0)] reads [U[-1][0]]. *)
Lemma calculate_T_strict Re Pr dt dx dy alpha imax jmax s :
  (∀ A i j, oob A i j = None) → 0 ≤ imax → 0 ≤ jmax →
  calculate_T oob Re Pr dt dx dy alpha imax jmax s = None.
Proof.
  intros Hoob Hi Hj. unfold calculate_T.
  rewrite for_range_step by lia. rewrite for_range_step by lia.
  assert (rd oob s U (0 - 1) 0 = None) as Hrd.
  { unfold rd. rewrite get_neg by lia. apply Hoob. }
  unfold assign, T_update. rewrite Hrd.
  destruct (rd oob s T 0 0), (rd oob s U 0 0), (rd oob s T (0 + 1) 0); done.
Qed.

Lemma rd_lenient s A i j : lenient oob → is_Some (rd oob s A i j).
Proof. intros Hl. unfold rd. destruct (get _ _ _); [eauto|apply Hl]. Qed.

Lemma T_update_lenient Re Pr dt dx dy alpha s i j :
  lenient oob → is_Some (T_update oob Re Pr dt dx dy alpha s i j).
Proof.
  intros Hl. unfold T_update.
  repeat match goal with
  | |- context [rd oob ?s ?A ?i ?j] =>
      let x := fresh "x" in destruct (rd_lenient s A i j Hl) as [x ->]
  end.
  simpl. eauto.
Qed.

(** The in-place sweep: a cell outside the swept range keeps its value, and
    an interior cell receives the update computed from the new values of its
    west and south neighbours and the old values of itself and of its east
    and north neighbours. *)
Lemma calculate_T_spec Re Pr dt dx dy alpha imax jmax s0 :
  lenient oob → wf imax jmax s0 → 0 ≤ imax → 0 ≤ jmax →
  ∃ s', calculate_T oob Re Pr dt dx dy alpha imax jmax s0 = Some s' ∧
        wf imax jmax s' ∧ frame [T] s0 s' ∧
        (∀ i j, ¬ swept 0 (imax + 1) 0 (jmax + 1) i j →
                cell s' T i j = cell s0 T i j) ∧
        (∀ i j, 1 ≤ i ≤ imax → 1 ≤ j ≤ jmax →
           cell s' T i j = Some (T_cell_v Re Pr dt dx dy alpha
             (val s0 U i j) (val s0 U (i - 1) j) (val s0 V i j) (val s0 V i (j - 1))
             (val s0 T i j) (val s0 T (i + 1) j) (val s' T (i - 1) j)
             (val s0 T i (j + 1)) (val s' T i (j - 1)))).
Proof.
  intros Hl Hs0 Hi Hj. unfold calculate_T.
  pose (before := λ (i j i' j' : Z), i' < i ∨ (i' = i ∧ j' < j)).
  pose (Inv := λ (i j : Z) (s : state),
    wf imax jmax s ∧ frame [T] s0 s ∧
    (∀ i' j', ¬ (swept 0 (imax + 1) 0 (jmax + 1) i' j' ∧ before i j i' j') →
              cell s T i' j' = cell s0 T i' j') ∧
    (∀ i' j', 1 ≤ i' ≤ imax → 1 ≤ j' ≤ jmax → before i j i' j' →
       cell s T i' j' = Some (T_cell_v Re Pr dt dx dy alpha
         (val s0 U i' j') (val s0 U (i' - 1) j') (val s0 V i' j') (val s0 V i' (j' - 1))
         (val s0 T i' j') (val s0 T (i' + 1) j') (val s T (i' - 1) j')
         (val s0 T i' (j' + 1)) (val s T i' (j' - 1))))).
  edestruct (for_range2_inv Inv 0 (imax + 1) 0 (jmax + 1))
    as (s' & -> & Hw & Hf & Hold & Hnew); [lia|lia| | | |].
  - split; [done|]. split; [apply frame_refl|]. split; [done|].
    intros i' j' ? ? Hb. unfold before in Hb. lia.
  - intros i j s ? ? (Hw & Hf & Hold & Hnew). unfold assign.
    destruct (T_update_lenient Re Pr dt dx dy alpha s i j Hl) as [x Hx].
    rewrite Hx. simpl.
    destruct (wr_in imax jmax s T i j x) as (s1 & -> & Hw1 & Hf1 & Hc1);
      [done|unfold in_extent; lia|].
    exists s1. split; [done|]. split; [done|]. split; [by eapply frame_trans|].
    assert (∀ i' j', ¬ (i' = i ∧ j' = j) → val s1 T i' j' = val s T i' j') as Hv1.
    { intros i' j' ?. apply val_cell. rewrite Hc1. by rewrite decide_False. }
    split.
    + intros i' j' Hn. rewrite Hc1, decide_False.
      * apply Hold. unfold swept, before in *. lia.
      * unfold swept, before in *. lia.
    + intros i' j' ? ? Hb. rewrite Hc1.
      destruct (decide (i' = i ∧ j' = j)) as [[-> ->]|Hne].
      * rewrite <- Hx. erewrite T_update_in by (done || lia).
        unfold T_update_v. f_equal.
        rewrite !(frame_val [T] s0 s) by (done || notin).
        rewrite !Hv1 by lia.
        rewrite (val_cell s0 s T i j), (val_cell s0 s T (i + 1) j),
          (val_cell s0 s T i (j + 1)); [done|apply Hold; unfold swept, before; lia..].
      * unfold before in *. rewrite !Hv1 by lia. apply Hnew; [done..|]. lia.
  - intros i s ? (Hw & Hf & Hold & Hnew). split; [done|]. split; [done|]. split.
    + intros i' j' Hn. apply Hold. unfold swept, before in *. lia.
    + intros i' j' ? ? Hb. apply Hnew; [done..|]. unfold before in *. lia.
  - exists s'. split; [done|]. split; [done|]. split; [done|]. split.
    + intros i j Hn. apply Hold. unfold swept, before in *. lia.
    + intros i j ? ?. apply Hnew; [done..|]. unfold before. lia.
Qed.

(** The double-buffered sweep stores the update of the old values. *)
Lemma calculate_T_buffered_spec Re Pr dt dx dy alpha imax jmax s0 :
  lenient oob → wf imax jmax s0 → 0 ≤ imax → 0 ≤ jmax →
  ∃ s', calculate_T_buffered oob Re Pr dt dx dy alpha imax jmax s0 = Some s' ∧
        wf imax jmax s' ∧ frame [T] s0 s' ∧
        (∀ i j, ¬ swept 0 (imax + 1) 0 (jmax + 1) i j →
                cell s' T i j = cell s0 T i j) ∧
        (∀ i j, 1 ≤ i ≤ imax → 1 ≤ j ≤ jmax →
           cell s' T i j = Some (T_update_v Re Pr dt dx dy alpha s0 i j)).
Proof.
  intros Hl Hs0 Hi Hj. unfold calculate_T_buffered.
  edestruct (sweep_spec T imax jmax 0 (imax + 1) 0 (jmax + 1) (λ _ _, true)
    (λ i j, default c0 (T_update oob Re Pr dt dx dy alpha s0 i j)))
    as (s' & -> & Hw & Hf & Hc); [done|lia..| |].
  - intros i j s ? ? ?. simpl. unfold assign.
    destruct (T_update_lenient Re Pr dt dx dy alpha s0 i j Hl) as [x ->]. done.
  - exists s'. split; [done|]. split; [done|]. split; [done|]. split.
    + intros i j Hn. rewrite Hc. by rewrite decide_False.
    + intros i j ? ?. rewrite Hc. rewrite decide_True by (unfold swept; lia).
      erewrite T_update_in by (done || lia). done.
Qed.

(** * The kernels' contracts *)

Local Open Scope num_scope.

(** C1.  On every edge of F's range [1..imax-1] x [1..jmax] whose cell and
    right neighbour are fluid, [calculate_fg] stores the explicit Euler step
    of the momentum equation, built from the discrete stencils, in
    [F[i][j]]; likewise for [G] on [1..imax] x [1..jmax-1] with the top
    neighbour and [GY].  A cell is fluid exactly when it is not an obstacle
    (the data model's reading of the flags). *)
Theorem calculate_fg_momentum Re GX GY alpha beta dt dx dy imax jmax s0 :
  wf imax jmax s0 → (1 ≤ imax)%Z → (1 ≤ jmax)%Z →
  (∀ c, isObstacle c = negb (isFluid c)) →
  (∀ c d, isNeighbourObstacle c d = negb (isNeighbourFluid c d)) →
  ∃ s', calculate_fg oob Re GX GY alpha beta dt dx dy imax jmax s0 = Some s' ∧
    (∀ i j, (1 ≤ i ≤ imax - 1)%Z → (1 ≤ j ≤ jmax)%Z →
       isFluid (flag_v s0 i j) = true →
       isNeighbourFluid (flag_v s0 i j) RIGHT = true →
       cell s' F i j = Some
         (val s0 U i j
          + dt * (1 / Re * (secondDerivativeDx_v s0 U i j dx
                            + secondDerivativeDy_v s0 U i j dy)
                  - squareDerivativeDx_v s0 U i j dx alpha
                  - productDerivativeDy_v s0 U V i j dy alpha
                  + (1 - beta * val s0 T i j) * GX))) ∧
    (∀ i j, (1 ≤ i ≤ imax)%Z → (1 ≤ j ≤ jmax - 1)%Z →
       isFluid (flag_v s0 i j) = true →
       isNeighbourFluid (flag_v s0 i j) TOP = true →
       cell s' G i j = Some
         (val s0 V i j
          + dt * (1 / Re * (secondDerivativeDx_v s0 V i j dx
                            + secondDerivativeDy_v s0 V i j dy)
                  - productDerivativeDx_v s0 U V i j dx alpha
                  - squareDerivativeDy_v s0 V i j dy alpha
                  + (1 - beta * val s0 T i j) * GY))).
Proof.
  intros Hw Hi Hj Hobs Hnb.
  destruct (calculate_fg_spec imax jmax Re GX GY alpha beta dt dx dy s0)
    as (s' & Hs' & _ & _ & HF & HG); [done..|].
  exists s'. split; [done|]. split.
  - intros i j ? ? Hfl Hn. rewrite HF.
    rewrite decide_True by (unfold swept; lia).
    unfold F_v. by rewrite Hobs, Hnb, Hfl, Hn.
  - intros i j ? ? Hfl Hn. rewrite HG.
    rewrite decide_True by (unfold swept; lia).
    unfold G_v. by rewrite Hobs, Hnb, Hfl, Hn.
Qed.

(** C5, as the loops have it.  After [calculate_fg], [G[i][0]] and
    [G[i][jmax]] hold the values of [V] there for every [i] in [1..imax],
    and [F[0][j]] and [F[imax][j]] hold the values of [U] there for every
    [j] in [1..jmax], whatever the interior of the fields and the flags. *)
Theorem calculate_fg_boundary_copy Re GX GY alpha beta dt dx dy imax jmax s0 :
  wf imax jmax s0 → (1 ≤ imax)%Z → (1 ≤ jmax)%Z →
  ∃ s', calculate_fg oob Re GX GY alpha beta dt dx dy imax jmax s0 = Some s' ∧
    (∀ i, (1 ≤ i ≤ imax)%Z →
       cell s' G i 0 = Some (val s' V i 0) ∧
       cell s' G i jmax = Some (val s' V i jmax)) ∧
    (∀ j, (1 ≤ j ≤ jmax)%Z →
       cell s' F 0 j = Some (val s' U 0 j) ∧
       cell s' F imax j = Some (val s' U imax j)).
Proof.
  intros Hw Hi Hj.
  destruct (calculate_fg_spec imax jmax Re GX GY alpha beta dt dx dy s0)
    as (s' & Hs' & _ & Hf & HF & HG); [done..|].
  exists s'. split; [done|].
  split; [intros i ?|intros j ?]; split.
  - rewrite HG, (frame_val [F; G] s0 s') by (done || notin).
    rewrite decide_False by (unfold swept; lia). by rewrite decide_True by lia.
  - rewrite HG, (frame_val [F; G] s0 s') by (done || notin).
    rewrite decide_False by (unfold swept; lia). by rewrite decide_True by lia.
  - rewrite HF, (frame_val [F; G] s0 s') by (done || notin).
    rewrite decide_False by (unfold swept; lia). by rewrite decide_True by lia.
  - rewrite HF, (frame_val [F; G] s0 s') by (done || notin).
    rewrite decide_False by (unfold swept; lia). by rewrite decide_True by lia.
Qed.

(** C6.  After [calculate_fg], on every edge of F's range whose cell or
    right neighbour is an obstacle, [F[i][j]] is [U[i][j]]; on every edge of
    G's range whose cell or top neighbour is an obstacle, [G[i][j]] is
    [V[i][j]]. *)
Theorem calculate_fg_obstacle Re GX GY alpha beta dt dx dy imax jmax s0 :
  wf imax jmax s0 → (1 ≤ imax)%Z → (1 ≤ jmax)%Z →
  ∃ s', calculate_fg oob Re GX GY alpha beta dt dx dy imax jmax s0 = Some s' ∧
    (∀ i j, (1 ≤ i ≤ imax - 1)%Z → (1 ≤ j ≤ jmax)%Z →
       isObstacle (flag_v s0 i j) = true ∨
       isNeighbourObstacle (flag_v s0 i j) RIGHT = true →
       cell s' F i j = Some (val s' U i j)) ∧
    (∀ i j, (1 ≤ i ≤ imax)%Z → (1 ≤ j ≤ jmax - 1)%Z →
       isObstacle (flag_v s0 i j) = true ∨
       isNeighbourObstacle (flag_v s0 i j) TOP = true →
       cell s' G i j = Some (val s' V i j)).
Proof.
  intros Hw Hi Hj.
  destruct (calculate_fg_spec imax jmax Re GX GY alpha beta dt dx dy s0)
    as (s' & Hs' & _ & Hf & HF & HG); [done..|].
  exists s'. split; [done|]. split.
  - intros i j ? ? Hob. rewrite HF, (frame_val [F; G] s0 s') by (done || notin).
    rewrite decide_True by (unfold swept; lia).
    unfold F_v. apply orb_true_iff in Hob. by rewrite Hob.
  - intros i j ? ? Hob. rewrite HG, (frame_val [F; G] s0 s') by (done || notin).
    rewrite decide_True by (unfold swept; lia).
    unfold G_v. apply orb_true_iff in Hob. by rewrite Hob.
Qed.

(** C8.  After [calculate_uv], on every edge of [1..imax-1] x [1..jmax]
    whose cell and right neighbour are fluid, [U[i][j]] is
    [F[i][j] - dt/dx * (P[i+1][j] - P[i][j])]; on every edge of
    [1..imax] x [1..jmax-1] whose cell and top neighbour are fluid,
    [V[i][j]] is [G[i][j] - dt/dy * (P[i][j+1] - P[i][j])]; every other
    entry of [U] and [V] keeps its value. *)
Theorem calculate_uv_correction dt dx dy imax jmax s0 :
  wf imax jmax s0 → (1 ≤ imax)%Z → (1 ≤ jmax)%Z →
  ∃ s', calculate_uv oob dt dx dy imax jmax s0 = Some s' ∧
    (∀ i j, (1 ≤ i ≤ imax - 1)%Z → (1 ≤ j ≤ jmax)%Z →
       isFluid (flag_v s0 i j) = true →
       isNeighbourFluid (flag_v s0 i j) RIGHT = true →
       cell s' U i j = Some
         (val s' F i j - dt / dx * (val s' P (i + 1) j - val s' P i j))) ∧
    (∀ i j, (1 ≤ i ≤ imax)%Z → (1 ≤ j ≤ jmax - 1)%Z →
       isFluid (flag_v s0 i j) = true →
       isNeighbourFluid (flag_v s0 i j) TOP = true →
       cell s' V i j = Some
         (val s' G i j - dt / dy * (val s' P i (j + 1) - val s' P i j))) ∧
    (∀ i j, ¬ ((1 ≤ i ≤ imax - 1)%Z ∧ (1 ≤ j ≤ jmax)%Z ∧
               isFluid (flag_v s0 i j) = true ∧
               isNeighbourFluid (flag_v s0 i j) RIGHT = true) →
       cell s' U i j = cell s0 U i j) ∧
    (∀ i j, ¬ ((1 ≤ i ≤ imax)%Z ∧ (1 ≤ j ≤ jmax - 1)%Z ∧
               isFluid (flag_v s0 i j) = true ∧
               isNeighbourFluid (flag_v s0 i j) TOP = true) →
       cell s' V i j = cell s0 V i j).
Proof.
  intros Hw Hi Hj.
  destruct (calculate_uv_spec imax jmax dt dx dy s0)
    as (s' & Hs' & _ & Hf & HU & HV); [done..|].
  exists s'. split; [done|]. repeat split.
  - intros i j ? ? Hfl Hn. rewrite HU.
    rewrite decide_True by (unfold swept; lia). rewrite Hfl, Hn. simpl.
    by rewrite <- (u_v_frame [U; V] dt dx s0 s') by (done || notin).
  - intros i j ? ? Hfl Hn. rewrite HV.
    rewrite decide_True by (unfold swept; lia). rewrite Hfl, Hn. simpl.
    by rewrite <- (v_v_frame [U; V] dt dy s0 s') by (done || notin).
  - intros i j Hn. rewrite HU. case_decide as Hsw; [|done].
    destruct (isFluid _) eqn:?, (isNeighbourFluid _ _) eqn:?; try done.
    exfalso. apply Hn. unfold swept in Hsw. repeat split; (lia || done).
  - intros i j Hn. rewrite HV. case_decide as Hsw; [|done].
    destruct (isFluid _) eqn:?, (isNeighbourFluid _ _) eqn:?; try done.
    exfalso. apply Hn. unfold swept in Hsw. repeat split; (lia || done).
Qed.

(** C10.  No kernel writes the flag field, and each kernel changes only
    its outputs: [calculate_fg] only [F] and [G], [calculate_rs] only [RS],
    [calculate_uv] only [U] and [V], [calculate_T] only [T] (where a read
    outside an array yields a value), [calculate_dt] only the time step. *)
Theorem kernels_frame Re Pr GX GY alpha beta tau dt dx dy imax jmax s :
  wf imax jmax s → (1 ≤ imax)%Z → (1 ≤ jmax)%Z →
  (∃ s', calculate_fg oob Re GX GY alpha beta dt dx dy imax jmax s = Some s' ∧
         st_flags s' = st_flags s ∧ st_dt s' = st_dt s ∧
         ∀ A, A ≠ F → A ≠ G → st_mem s' A = st_mem s A) ∧
  (∃ s', calculate_rs oob dt dx dy imax jmax s = Some s' ∧
         st_flags s' = st_flags s ∧ st_dt s' = st_dt s ∧
         ∀ A, A ≠ RS → st_mem s' A = st_mem s A) ∧
  (∃ s', calculate_uv oob dt dx dy imax jmax s = Some s' ∧
         st_flags s' = st_flags s ∧ st_dt s' = st_dt s ∧
         ∀ A, A ≠ U → A ≠ V → st_mem s' A = st_mem s A) ∧
  (lenient oob →
   ∃ s', calculate_T oob Re Pr dt dx dy alpha imax jmax s = Some s' ∧
         st_flags s' = st_flags s ∧ st_dt s' = st_dt s ∧
         ∀ A, A ≠ T → st_mem s' A = st_mem s A) ∧
  (∃ s', calculate_dt oob Re Pr tau dx dy imax jmax s = Some s' ∧
         st_flags s' = st_flags s ∧
         ∀ A, st_mem s' A = st_mem s A).
Proof.
  intros Hw Hi Hj. repeat split.
  - destruct (calculate_fg_spec imax jmax Re GX GY alpha beta dt dx dy s)
      as (s' & Hs' & _ & (? & ? & Hm) & _); [done..|].
    exists s'. repeat split; [done..|]. intros A ? ?. apply Hm. notin.
  - destruct (calculate_rs_spec imax jmax dt dx dy s)
      as (s' & Hs' & _ & (? & ? & Hm) & _); [done..|].
    exists s'. repeat split; [done..|]. intros A ?. apply Hm. notin.
  - destruct (calculate_uv_spec imax jmax dt dx dy s)
      as (s' & Hs' & _ & (? & ? & Hm) & _); [done..|].
    exists s'. repeat split; [done..|]. intros A ? ?. apply Hm. notin.
  - intros Hl.
    destruct (calculate_T_spec Re Pr dt dx dy alpha imax jmax s)
      as (s' & Hs' & _ & (? & ? & Hm) & _); [done|done|lia..|].
    exists s'. repeat split; [done..|]. intros A ?. apply Hm. notin.
  - rewrite (calculate_dt_spec imax jmax) by (done || lia).
    eexists. repeat split.
Qed.


End Properties.

(** * IEEE-754 binary64 *)

(** ** The order of binary64 *)

Ltac sf_cases :=
  repeat match goal with
  | |- context [Z.compare ?a ?b] => destruct (Z.compare_spec a b)
  | |- context [Pos.compare_cont Eq ?a ?b] =>
      change (Pos.compare_cont Eq a b) with (Pos.compare a b);
      destruct (Pos.compare_spec a b)
  end; simpl; try done; try lia.

Lemma SFleb_ltb_trans x y z :
  SFleb x y = true → SFltb y z = true → SFltb x z = true.
Proof.
  unfold SFleb, SFltb, SFcompare.
  destruct x as [[]|[]| |[] mx ex], y as [[]|[]| |[] my ey], z as [[]|[]| |[] mz ez];
    simpl; try done; sf_cases.
Qed.

Lemma SFleb_trans x y z :
  SFleb x y = true → SFleb y z = true → SFleb x z = true.
Proof.
  unfold SFleb, SFcompare.
  destruct x as [[]|[]| |[] mx ex], y as [[]|[]| |[] my ey], z as [[]|[]| |[] mz ez];
    simpl; try done; sf_cases.
Qed.

Lemma SFltb_irrefl x : SFltb x x = false.
Proof.
  unfold SFltb, SFcompare. destruct x as [[]|[]| |[] mx ex]; simpl; try done; sf_cases.
Qed.


Lemma SFltb_leb x y : SFltb x y = true → SFleb x y = true.
Proof. unfold SFleb, SFltb. by destruct (SFcompare x y) as [[]|]. Qed.

Lemma SFleb_refl x : x ≠ S754_nan → SFleb x x = true.
Proof.
  unfold SFleb, SFcompare. destruct x as [[]|[]| |[] mx ex]; simpl; try done; sf_cases.
Qed.

(** ** Rounding never invents a NaN *)

Lemma shr_1_nonneg mrs : 0 ≤ shr_m mrs → 0 ≤ shr_m (shr_1 mrs).
Proof. destruct mrs as [[|[p|p|]|[p|p|]] r t]; simpl; lia. Qed.

Lemma iter_pos_shr_1_nonneg p mrs :
  0 ≤ shr_m mrs → 0 ≤ shr_m (SpecFloat.iter_pos shr_1 p mrs).
Proof.
  revert mrs. induction p as [p IH|p IH|]; intros mrs Hm; simpl.
  - by apply IH, IH, shr_1_nonneg.
  - by apply IH, IH.
  - by apply shr_1_nonneg.
Qed.

Lemma shr_fexp_nonneg prec emax m e l :
  0 ≤ m → 0 ≤ shr_m (fst (shr_fexp prec emax m e l)).
Proof.
  intros Hm. unfold shr_fexp, shr.
  assert (0 ≤ shr_m (shr_record_of_loc m l)) by (by destruct l as [|[]]).
  destruct (_ - e); simpl; [done| |done]. by apply iter_pos_shr_1_nonneg.
Qed.

Lemma round_nearest_even_nonneg m l : 0 ≤ m → 0 ≤ round_nearest_even m l.
Proof.
  intros Hm. destruct l as [|[]]; simpl; [done| |done|lia].
  destruct (Z.even m); lia.
Qed.

Lemma binary_round_aux_not_nan prec emax sx mx ex lx :
  0 ≤ mx → binary_round_aux prec emax sx mx ex lx ≠ S754_nan.
Proof.
  intros Hm. unfold binary_round_aux.
  pose proof (shr_fexp_nonneg prec emax mx ex lx Hm) as H1.
  destruct (shr_fexp prec emax mx ex lx) as [mrs' e']. simpl in H1.
  pose proof (shr_fexp_nonneg prec emax _ e' loc_Exact
                (round_nearest_even_nonneg _ (loc_of_shr_record mrs') H1)) as H2.
  destruct (shr_fexp prec emax _ e' loc_Exact) as [mrs'' e'']. simpl in H2.
  destruct (shr_m mrs''); [done| |lia]. by destruct (_ <=? _).
Qed.

Lemma SFmul_finite_not_nan prec emax sx mx ex y :
  y ≠ S754_nan → SFmul prec emax (S754_finite sx mx ex) y ≠ S754_nan.
Proof.
  intros Hy. destruct y as [sy|sy| |sy my ey]; simpl; try done.
  by apply binary_round_aux_not_nan.
Qed.

Lemma SFdiv_finite_not_nan prec emax sx mx ex y :
  y ≠ S754_nan → SFdiv prec emax (S754_finite sx mx ex) y ≠ S754_nan.
Proof.
  intros Hy. destruct y as [sy|sy| |sy my ey]; simpl; try done.
  destruct (SFdiv_core_binary _ _ _ _ _ _) as [[mz ez] lz] eqn:Hcore.
  apply binary_round_aux_not_nan.
  unfold SFdiv_core_binary in Hcore.
  set (m' := match _ - _ - _ with
             | 0 => Z.pos mx | Z.pos _ => Z.shiftl (Z.pos mx) _ | Z.neg _ => 0 end) in Hcore.
  assert (0 ≤ m') as Hm'.
  { subst m'. destruct (_ - _ - _) eqn:?; [lia| |lia]. apply Z.shiftl_nonneg. lia. }
  pose proof (Z.div_pos m' (Z.pos my) Hm' ltac:(lia)) as Hq.
  unfold Z.div in Hq. destruct (Z.div_eucl m' (Z.pos my)) as [q r].
  injection Hcore as <- _ _. done.
Qed.

(** ** Signs

    A float with [abs x = x] is a NaN or has a clear sign bit; sums,
    products and quotients of such floats are such floats. *)

Lemma binary_round_aux_abs prec emax mx ex lx :
  SFabs (binary_round_aux prec emax false mx ex lx)
  = binary_round_aux prec emax false mx ex lx.
Proof.
  unfold binary_round_aux.
  destruct (shr_fexp prec emax mx ex lx) as [mrs' e'].
  destruct (shr_fexp prec emax _ e' loc_Exact) as [mrs'' e''].
  destruct (shr_m mrs''); [done| |done]. by destruct (_ <=? _).
Qed.

Lemma SFmul_abs prec emax a b :
  SFabs a = a → SFabs b = b → SFabs (SFmul prec emax a b) = SFmul prec emax a b.
Proof.
  destruct a as [[]|[]| |[] ma ea], b as [[]|[]| |[] mb eb]; simpl; try done.
  intros _ _. apply binary_round_aux_abs.
Qed.

Lemma SFdiv_abs prec emax a b :
  SFabs a = a → SFabs b = b → SFabs (SFdiv prec emax a b) = SFdiv prec emax a b.
Proof.
  destruct a as [[]|[]| |[] ma ea], b as [[]|[]| |[] mb eb]; simpl; try done.
  intros _ _. destruct (SFdiv_core_binary _ _ _ _ _ _) as [[mz ez] lz].
  apply binary_round_aux_abs.
Qed.

Lemma SFadd_abs prec emax a b :
  SFabs a = a → SFabs b = b → SFabs (SFadd prec emax a b) = SFadd prec emax a b.
Proof.
  destruct a as [[]|[]| |[] ma ea], b as [[]|[]| |[] mb eb]; simpl; try done.
  intros _ _. unfold binary_round.
  destruct (shl_align _ _ _) as [mz ez]. apply binary_round_aux_abs.
Qed.

Lemma SFleb_zero_abs a : a ≠ S754_nan → SFabs a = a → SFleb (S754_zero false) a = true.
Proof. by destruct a as [[]|[]| |[] m e]. Qed.

Lemma SFltb_zero_abs a : SFltb (S754_zero false) a = true → SFabs a = a.
Proof. by destruct a as [[]|[]| |[] m e]. Qed.

(** ** Rounding to nearest even

    The mantissa of a rounded result is [round_shift] of the exact
    mantissa. *)






(** ** The shifts of the rounding function *)





(** ** Rounded products are monotone *)











(** ** Comparisons, minima and the scan for the maxima *)

Section Binary64.

Context {CF : CellFlags}.
Variable oob : array → Z → Z → option float.
Implicit Types (s : @state float) (A : array) (x y z : float).



Lemma is_nan_spec x : PrimFloat.is_nan x = true ↔ Prim2SF x = S754_nan.
Proof.
  unfold PrimFloat.is_nan. rewrite FloatAxioms.eqb_spec.
  destruct (Prim2SF x) as [sg|sg| |sg m e]; try destruct sg; simpl; try done.
  - unfold SFeqb, SFcompare. rewrite Z.compare_refl, Pos.compare_cont_refl. done.
  - unfold SFeqb, SFcompare. rewrite Z.compare_refl, Pos.compare_cont_refl. done.
Qed.



Lemma not_nan_spec x : PrimFloat.is_nan x = false ↔ Prim2SF x ≠ S754_nan.
Proof.
  rewrite <- is_nan_spec. by destruct (PrimFloat.is_nan x).
Qed.

Lemma leb_not_nan x y :
  PrimFloat.leb x y = true → PrimFloat.is_nan x = false ∧ PrimFloat.is_nan y = false.
Proof.
  rewrite FloatAxioms.leb_spec, !not_nan_spec. unfold SFleb, SFcompare.
  by destruct (Prim2SF x) as [| | |], (Prim2SF y) as [| | |].
Qed.

Lemma ltb_irrefl x : PrimFloat.ltb x x = false.
Proof. rewrite FloatAxioms.ltb_spec. apply SFltb_irrefl. Qed.

Lemma ltb_leb x y : PrimFloat.ltb x y = true → PrimFloat.leb x y = true.
Proof. rewrite FloatAxioms.ltb_spec, FloatAxioms.leb_spec. apply SFltb_leb. Qed.

Lemma leb_refl x : PrimFloat.is_nan x = false → PrimFloat.leb x x = true.
Proof. rewrite not_nan_spec, FloatAxioms.leb_spec. apply SFleb_refl. Qed.


Lemma leb_trans x y z :
  PrimFloat.leb x y = true → PrimFloat.leb y z = true → PrimFloat.leb x z = true.
Proof. rewrite !FloatAxioms.leb_spec. apply SFleb_trans. Qed.

Lemma leb_ltb_trans x y z :
  PrimFloat.leb x y = true → PrimFloat.ltb y z = true → PrimFloat.ltb x z = true.
Proof. rewrite FloatAxioms.leb_spec, !FloatAxioms.ltb_spec. apply SFleb_ltb_trans. Qed.


(** A positive number below infinity has a mantissa and an exponent. *)
Lemma positive_finite x :
  PrimFloat.ltb 0 x = true → PrimFloat.ltb x infinity = true →
  ∃ m e, Prim2SF x = S754_finite false m e.
Proof.
  rewrite !FloatAxioms.ltb_spec.
  change (Prim2SF 0) with (S754_zero false).
  change (Prim2SF infinity) with (S754_infinity false).
  destruct (Prim2SF x) as [[]|[]| |[] m e]; try done. eauto.
Qed.

(** Products and quotients of a positive finite number are numbers. *)
Lemma mul_positive_finite_not_nan x y :
  PrimFloat.ltb 0 x = true → PrimFloat.ltb x infinity = true →
  PrimFloat.is_nan y = false → PrimFloat.is_nan (x * y) = false.
Proof.
  intros H0 Hinf Hy. destruct (positive_finite x H0 Hinf) as (m & e & Hx).
  apply not_nan_spec. rewrite FloatAxioms.mul_spec, Hx.
  by apply SFmul_finite_not_nan, not_nan_spec.
Qed.

Lemma div_positive_finite_not_nan x y :
  PrimFloat.ltb 0 x = true → PrimFloat.ltb x infinity = true →
  PrimFloat.is_nan y = false → PrimFloat.is_nan (x / y) = false.
Proof.
  intros H0 Hinf Hy. destruct (positive_finite x H0 Hinf) as (m & e & Hx).
  apply not_nan_spec. rewrite FloatAxioms.div_spec, Hx.
  by apply SFdiv_finite_not_nan, not_nan_spec.
Qed.

(** [fmin] returns one of its arguments, a number when one of them is, and
    then at most each argument that is a number. *)
Lemma fmin64_cases x y : fmin64 x y = x ∨ fmin64 x y = y.
Proof.
  unfold fmin64.
  destruct (PrimFloat.is_nan x), (PrimFloat.is_nan y), (PrimFloat.ltb x y); auto.
Qed.



Lemma fmin64_not_nan x y :
  PrimFloat.is_nan x = false ∨ PrimFloat.is_nan y = false →
  PrimFloat.is_nan (fmin64 x y) = false.
Proof.
  unfold fmin64.
  destruct (PrimFloat.is_nan x) eqn:Hx, (PrimFloat.is_nan y) eqn:Hy;
    simpl; intros [?|?]; try done; by destruct (PrimFloat.ltb x y).
Qed.





(** The scan of [calculate_dt]: the running maximum never decreases, so it
    ends at or above every entry that is a number, and it is its start
    value or the absolute value of an entry. *)
Lemma max_step_leb (m a : float) :
  PrimFloat.is_nan m = false → PrimFloat.leb m (max_step m a) = true.
Proof.
  intros Hm. unfold max_step. simpl.
  destruct (PrimFloat.ltb m (PrimFloat.abs a)) eqn:Hlt; [by apply ltb_leb|by apply leb_refl].
Qed.

Lemma max_step_above (m a : float) :
  PrimFloat.ltb (max_step m a) (PrimFloat.abs a) = false.
Proof.
  unfold max_step. simpl.
  destruct (PrimFloat.ltb m (PrimFloat.abs a)) eqn:Hlt; [apply ltb_irrefl|done].
Qed.

Lemma fold_max_step s A (l : list (Z * Z)) (m0 : float) :
  PrimFloat.is_nan m0 = false →
  let m := foldl (λ m '(i, j), max_step m (val s A i j)) m0 l in
  PrimFloat.leb m0 m = true ∧
  (∀ i j, (i, j) ∈ l → PrimFloat.ltb m (PrimFloat.abs (val s A i j)) = false) ∧
  (m = m0 ∨ ∃ i j, (i, j) ∈ l ∧ m = PrimFloat.abs (val s A i j)).
Proof.
  revert m0. induction l as [|[i j] l IH]; intros m0 Hm0; simpl.
  - split; [by apply leb_refl|]. split; [|by left].
    intros i j Hin. by apply elem_of_nil in Hin.
  - pose proof (max_step_leb m0 (val s A i j) Hm0) as Hstep.
    destruct (IH (max_step m0 (val s A i j))) as (Hle & Hub & Hat);
      [exact (proj2 (leb_not_nan _ _ Hstep))|].
    split; [by eapply leb_trans|]. split.
    + intros i' j' [[= -> ->]|Hin]%elem_of_cons; [|by apply Hub].
      destruct (PrimFloat.ltb _ (PrimFloat.abs (val s A i j))) eqn:Hlt; [|done].
      pose proof (max_step_above m0 (val s A i j)) as Habove.
      by rewrite (leb_ltb_trans _ _ _ Hle Hlt) in Habove.
    + destruct Hat as [->|(i' & j' & Hin & ->)].
      * unfold max_step. simpl. destruct (PrimFloat.ltb m0 _); [|by left].
        right. exists i, j. split; [constructor|done].
      * right. exists i', j'. split; [by constructor|done].
Qed.


Lemma max_abs_attained s A imax jmax :
  max_abs s A imax jmax = 0%float ∨
  ∃ i j, 0 ≤ i ≤ imax ∧ 0 ≤ j ≤ jmax ∧
         max_abs s A imax jmax = PrimFloat.abs (val s A i j).
Proof.
  destruct (fold_max_step s A (scanned imax jmax) 0%float eq_refl) as (_ & _ & Hat).
  destruct Hat as [?|(i & j & Hin%elem_of_scanned & ?)]; [by left|].
  right. exists i, j. by destruct Hin.
Qed.

(** The running maximum stays at or above zero, NaN entries or not. *)
Lemma max_step_nonneg (m a : float) :
  PrimFloat.leb 0 m = true → PrimFloat.leb 0 (max_step m a) = true.
Proof.
  intros Hm. unfold max_step. simpl.
  destruct (PrimFloat.ltb m (PrimFloat.abs a)) eqn:Hlt; [|done].
  revert Hlt. rewrite FloatAxioms.leb_spec, FloatAxioms.ltb_spec, FloatAxioms.abs_spec.
  change (Prim2SF 0) with (S754_zero false).
  destruct (Prim2SF a) as [sg|sg| |sg ma ea]; try done.
  by destruct (Prim2SF m) as [[]|[]| |[] mm em].
Qed.

Lemma leb_zero_not_nan x : PrimFloat.leb 0 x = true → PrimFloat.is_nan x = false.
Proof.
  intros Hx. destruct (PrimFloat.is_nan x) eqn:Hn; [|done].
  apply is_nan_spec in Hn. revert Hx.
  rewrite FloatAxioms.leb_spec, Hn. done.
Qed.

Lemma max_abs_nonneg s A imax jmax : PrimFloat.leb 0 (max_abs s A imax jmax) = true.
Proof.
  unfold max_abs.
  assert (∀ (l : list (Z * Z)) (m : float), PrimFloat.leb 0 m = true →
    PrimFloat.leb 0 (foldl (λ m '(i, j), max_step m (val s A i j)) m l) = true)
    as Hfold.
  { induction l as [|[i j] l IH]; intros m Hm; simpl; [done|].
    by apply IH, max_step_nonneg. }
  by apply Hfold.
Qed.

Lemma abs_nan_not_above x :
  PrimFloat.is_nan x = true → PrimFloat.ltb 0 (PrimFloat.abs x) = false.
Proof.
  intros Hn%is_nan_spec.
  by rewrite FloatAxioms.ltb_spec, FloatAxioms.abs_spec, Hn.
Qed.

Lemma abs_fixed_spec x : PrimFloat.abs x = x ↔ SFabs (Prim2SF x) = Prim2SF x.
Proof.
  rewrite <- FloatAxioms.abs_spec. split; [by intros ->|apply Prim2SF_inj].
Qed.

Lemma abs_abs x : PrimFloat.abs (PrimFloat.abs x) = PrimFloat.abs x.
Proof.
  apply abs_fixed_spec. rewrite FloatAxioms.abs_spec. by destruct (Prim2SF x).
Qed.

Lemma abs_positive x : PrimFloat.ltb 0 x = true → PrimFloat.abs x = x.
Proof.
  rewrite FloatAxioms.ltb_spec, abs_fixed_spec. apply SFltb_zero_abs.
Qed.

Lemma abs_mul x y :
  PrimFloat.abs x = x → PrimFloat.abs y = y → PrimFloat.abs (x * y) = (x * y)%float.
Proof.
  rewrite !abs_fixed_spec, FloatAxioms.mul_spec. apply SFmul_abs.
Qed.

Lemma abs_div x y :
  PrimFloat.abs x = x → PrimFloat.abs y = y → PrimFloat.abs (x / y) = (x / y)%float.
Proof.
  rewrite !abs_fixed_spec, FloatAxioms.div_spec. apply SFdiv_abs.
Qed.

Lemma abs_add x y :
  PrimFloat.abs x = x → PrimFloat.abs y = y → PrimFloat.abs (x + y) = (x + y)%float.
Proof.
  rewrite !abs_fixed_spec, FloatAxioms.add_spec. apply SFadd_abs.
Qed.

Lemma abs_fmin64 x y :
  PrimFloat.abs x = x → PrimFloat.abs y = y →
  PrimFloat.abs (fmin64 x y) = fmin64 x y.
Proof. intros Hx Hy. by destruct (fmin64_cases x y) as [-> | ->]. Qed.

Lemma leb_zero_abs x :
  PrimFloat.is_nan x = false → PrimFloat.abs x = x → PrimFloat.leb 0 x = true.
Proof.
  rewrite not_nan_spec, abs_fixed_spec, FloatAxioms.leb_spec. apply SFleb_zero_abs.
Qed.

Lemma abs_max_abs s A imax jmax :
  PrimFloat.abs (max_abs s A imax jmax) = max_abs s A imax jmax.
Proof.
  destruct (max_abs_attained s A imax jmax) as [->|(i & j & _ & _ & ->)];
    [done|apply abs_abs].
Qed.


(** ** The time step *)



End Binary64.

(** * The temperature sweep *)

(** C4 fails on the code.  With reads outside an array an error,
    [calculate_T] has no result on any grid: the neighbour reads
    [A[i-1][j]] at [i = 0] and [A[i][j-1]] at [j = 0] have the index [-1],
    outside [0..imax+1] x [0..jmax+1], and the first cell of the sweep,
    [(0, 0)], reads [U[-1][0]]. *)
Theorem calculate_T_out_of_bounds {num} {AR : Arith num}
    (Re Pr dt dx dy alpha : num) imax jmax (s : @state num) :
  0 ≤ imax → 0 ≤ jmax →
  (∀ i j, ¬ in_extent imax jmax (0 - 1) j ∧ ¬ in_extent imax jmax i (0 - 1)) ∧
  (∀ A i j, rd strict s A (0 - 1) j = None ∧ rd strict s A i (0 - 1) = None) ∧
  T_update strict Re Pr dt dx dy alpha s 0 0 = None ∧
  calculate_T strict Re Pr dt dx dy alpha imax jmax s = None.
Proof.
  intros Hi Hj.
  assert (∀ A i j, rd strict s A (0 - 1) j = None ∧ rd strict s A i (0 - 1) = None)
    as Hrd by (intros A i j; unfold rd; by rewrite !get_neg by lia).
  split; [intros i j; unfold in_extent; lia|]. split; [done|]. split.
  - unfold T_update. rewrite (proj1 (Hrd U 0 0)).
    destruct (rd _ s T 0 0), (rd _ s U 0 0), (rd _ s T (0 + 1) 0); done.
  - by apply calculate_T_strict.
Qed.

(** * The example grid *)

Lemma mk_state_wf {num} imax jmax (u v f g p rs t : field num) fl dt :
  has_extent imax jmax u → has_extent imax jmax v → has_extent imax jmax f →
  has_extent imax jmax g → has_extent imax jmax p → has_extent imax jmax rs →
  has_extent imax jmax t → has_extent imax jmax fl →
  wf imax jmax (mk_state u v f g p rs t fl dt).
Proof. intros. split; [intros []|]; done. Qed.

Ltac extent := split; [reflexivity|repeat constructor].

Lemma ex_wf : wf 2 2 ex.
Proof. apply mk_state_wf; extent. Qed.



(** C9.  Where a read outside an array yields a value, the in-place sweep
    of [calculate_T] computes the update of an interior cell from the
    values its west and south neighbours received earlier in the same
    sweep, and the double-buffered scheme computes it from their old
    values; and there is an input on which the two results differ. *)
Theorem calculate_T_not_double_buffered :
  (∀ {num} {AR : Arith num} oob (Re Pr dt dx dy alpha : num) imax jmax
     (s0 : @state num),
     lenient oob → wf imax jmax s0 → 0 ≤ imax → 0 ≤ jmax →
     ∃ s1 s2,
       calculate_T oob Re Pr dt dx dy alpha imax jmax s0 = Some s1 ∧
       calculate_T_buffered oob Re Pr dt dx dy alpha imax jmax s0 = Some s2 ∧
       ∀ i j, 1 ≤ i ≤ imax → 1 ≤ j ≤ jmax →
         cell s1 T i j = Some (T_cell_v Re Pr dt dx dy alpha
           (val s0 U i j) (val s0 U (i - 1) j) (val s0 V i j) (val s0 V i (j - 1))
           (val s0 T i j) (val s0 T (i + 1) j) (val s1 T (i - 1) j)
           (val s0 T i (j + 1)) (val s1 T i (j - 1))) ∧
         cell s2 T i j = Some (T_cell_v Re Pr dt dx dy alpha
           (val s0 U i j) (val s0 U (i - 1) j) (val s0 V i j) (val s0 V i (j - 1))
           (val s0 T i j) (val s0 T (i + 1) j) (val s0 T (i - 1) j)
           (val s0 T i (j + 1)) (val s0 T i (j - 1)))) ∧
  (∃ s1 s2 : @state float,
     wf 2 2 ex ∧
     (calculate_T zeros 2 1 0.25 0.5 0.5 0.5 2 2 ex)%float = Some s1 ∧
     (calculate_T_buffered zeros 2 1 0.25 0.5 0.5 0.5 2 2 ex)%float = Some s2 ∧
     cell s1 T 1 1 = Some (-5.03125)%float ∧
     cell s2 T 1 1 = Some (-3.0625)%float ∧
     cell s1 T 1 1 ≠ cell s2 T 1 1).
Proof.
  split.
  - intros num AR oob Re Pr dt dx dy alpha imax jmax s0 Hl Hw Hi Hj.
    destruct (calculate_T_spec oob Re Pr dt dx dy alpha imax jmax s0)
      as (s1 & Hs1 & _ & _ & _ & H1); [done..|].
    destruct (calculate_T_buffered_spec oob Re Pr dt dx dy alpha imax jmax s0)
      as (s2 & Hs2 & _ & _ & _ & H2); [done..|].
    exists s1, s2. split; [done|]. split; [done|].
    intros i j ? ?. split; [by apply H1|by apply H2].
  - destruct (calculate_T zeros 2 1 0.25 0.5 0.5 0.5 2 2 ex)%float as [s1|] eqn:H1;
      [|by vm_compute in H1].
    destruct (calculate_T_buffered zeros 2 1 0.25 0.5 0.5 0.5 2 2 ex)%float as [s2|] eqn:H2;
      [|by vm_compute in H2].
    exists s1, s2. split; [apply ex_wf|]. split; [done|]. split; [done|].
    assert (cell s1 T 1 1 = Some (-5.03125)%float) as Hc1.
    { vm_compute in H1. injection H1 as <-. vm_compute. reflexivity. }
    assert (cell s2 T 1 1 = Some (-3.0625)%float) as Hc2.
    { vm_compute in H2. injection H2 as <-. vm_compute. reflexivity. }
    split; [done|]. split; [done|].
    rewrite Hc1, Hc2. discriminate.
Qed.

(** * The contracts at the example grid *)

(** C1 at the example grid: the edge [(1, 1)] lies between fluid cells in
    both directions. *)
Lemma calculate_fg_momentum_witness :
  ∃ s', (calculate_fg (CF := bit_flags) strict
           2 0.5 (-1) 0.5 0.25 0.25 0.5 0.5 2 2 ex)%float = Some s' ∧
        cell s' F 1 1 = Some (-1.15625)%float ∧
        cell s' G 1 1 = Some (-0.984375)%float.
Proof.
  destruct (calculate_fg_momentum (CF := bit_flags) strict
              2 0.5 (-1) 0.5 0.25 0.25 0.5 0.5 2 2 ex)%float
    as (s' & Hs' & HF & HG);
    [apply ex_wf|lia|lia|intros; reflexivity|intros; reflexivity|].
  exists s'. split; [exact Hs'|]. split.
  - rewrite (HF 1 1) by (lia || reflexivity). vm_compute. reflexivity.
  - rewrite (HG 1 1) by (lia || reflexivity). vm_compute. reflexivity.
Defined.

(** C5 as stated fails at [i = 0] and at [j = 0]: the loops of
    [calculate_fg] start at 1, so [G[0][0]] and [F[0][0]] keep the values
    they had, which are not those of [V[0][0]] and [U[0][0]]. *)
Lemma boundary_copy_not_for_all_i :
  ∃ s', (calculate_fg (CF := bit_flags) strict
           2 0.5 (-1) 0.5 0.25 0.25 0.5 0.5 2 2 ex)%float = Some s' ∧
        cell s' G 0 0 = Some 2%float ∧ cell s' V 0 0 = Some 1%float ∧
        cell s' G 0 0 ≠ cell s' V 0 0 ∧
        cell s' F 0 0 = Some 0%float ∧ cell s' U 0 0 = Some 1%float ∧
        cell s' F 0 0 ≠ cell s' U 0 0.
Proof.
  destruct (calculate_fg (CF := bit_flags) strict
              2 0.5 (-1) 0.5 0.25 0.25 0.5 0.5 2 2 ex)%float as [s'|] eqn:Hs';
    [|by vm_compute in Hs'].
  exists s'. split; [done|].
  vm_compute in Hs'. injection Hs' as <-.
  repeat split; try (vm_compute; reflexivity); vm_compute; discriminate.
Qed.

(** C5, as the loops have it, at the example grid. *)
Lemma calculate_fg_boundary_copy_witness :
  ∃ s', (calculate_fg (CF := bit_flags) strict
           2 0.5 (-1) 0.5 0.25 0.25 0.5 0.5 2 2 ex)%float = Some s' ∧
        cell s' G 1 0 = Some (-0.5)%float ∧ cell s' G 1 2 = Some 1%float ∧
        cell s' F 0 1 = Some 0.5%float ∧ cell s' F 2 1 = Some (-0.5)%float.
Proof.
  destruct (calculate_fg_boundary_copy (CF := bit_flags) strict
              2 0.5 (-1) 0.5 0.25 0.25 0.5 0.5 2 2 ex)%float
    as (s' & Hs' & HG & HF); [apply ex_wf|lia|lia|].
  exists s'. split; [exact Hs'|].
  destruct (HG 1) as [-> ->]; [lia|]. destruct (HF 1) as [-> ->]; [lia|].
  vm_compute in Hs'. injection Hs' as <-.
  repeat split; vm_compute; reflexivity.
Defined.

(** C6 at the example grid: the right neighbour of [(1, 2)] is an obstacle,
    and so is the cell [(2, 1)]. *)
Lemma calculate_fg_obstacle_witness :
  ∃ s', (calculate_fg (CF := bit_flags) strict
           2 0.5 (-1) 0.5 0.25 0.25 0.5 0.5 2 2 ex)%float = Some s' ∧
        cell s' F 1 2 = Some (-1)%float ∧ cell s' G 2 1 = Some (-1)%float.
Proof.
  destruct (calculate_fg_obstacle (CF := bit_flags) strict
              2 0.5 (-1) 0.5 0.25 0.25 0.5 0.5 2 2 ex)%float
    as (s' & Hs' & HF & HG); [apply ex_wf|lia|lia|].
  exists s'. split; [exact Hs'|].
  rewrite (HF 1 2) by (lia || (right; reflexivity)).
  rewrite (HG 2 1) by (lia || (left; reflexivity)).
  vm_compute in Hs'. injection Hs' as <-.
  split; vm_compute; reflexivity.
Defined.

(** C8 at the example grid: [(1, 1)] is corrected, [U[1][2]] and [V[2][1]]
    touch an obstacle and stay. *)
Lemma calculate_uv_correction_witness :
  ∃ s', (calculate_uv (CF := bit_flags) strict 0.25 0.5 0.5 2 2 ex)%float = Some s' ∧
        cell s' U 1 1 = Some 2.5%float ∧ cell s' V 1 1 = Some 1.5%float ∧
        cell s' U 1 2 = cell ex U 1 2 ∧ cell s' V 2 1 = cell ex V 2 1.
Proof.
  destruct (calculate_uv_correction (CF := bit_flags) strict 0.25 0.5 0.5 2 2 ex)%float
    as (s' & Hs' & HU & HV & HU' & HV'); [apply ex_wf|lia|lia|].
  exists s'. split; [exact Hs'|].
  rewrite (HU 1 1), (HV 1 1) by (lia || reflexivity).
  rewrite (HU' 1 2), (HV' 2 1) by (intros (_ & _ & ? & ?); discriminate).
  vm_compute in Hs'. injection Hs' as <-.
  repeat split; vm_compute; reflexivity.
Defined.

(** C10 at the example grid. *)
Lemma kernels_frame_witness :
  (∃ s', (calculate_fg (CF := bit_flags) zeros
            2 0.5 (-1) 0.5 0.25 0.25 0.5 0.5 2 2 ex)%float = Some s' ∧
         st_flags s' = ex_flags ∧ st_mem s' U = st_mem ex U ∧
         st_mem s' V = st_mem ex V ∧ st_mem s' T = st_mem ex T) ∧
  (∃ s', (calculate_rs (CF := bit_flags) zeros 0.25 0.5 0.5 2 2 ex)%float = Some s' ∧
         st_flags s' = ex_flags ∧ st_mem s' F = st_mem ex F ∧
         st_mem s' G = st_mem ex G) ∧
  (∃ s', (calculate_uv (CF := bit_flags) zeros 0.25 0.5 0.5 2 2 ex)%float = Some s' ∧
         st_flags s' = ex_flags ∧ st_mem s' F = st_mem ex F ∧
         st_mem s' G = st_mem ex G ∧ st_mem s' P = st_mem ex P) ∧
  (∃ s', (calculate_T zeros 2 1 0.25 0.5 0.5 0.5 2 2 ex)%float = Some s' ∧
         st_flags s' = ex_flags ∧ st_mem s' U = st_mem ex U ∧
         st_mem s' V = st_mem ex V) ∧
  (∃ s', (calculate_dt zeros 2 1 0.5 0.5 0.5 2 2 ex)%float = Some s' ∧
         st_flags s' = ex_flags ∧ st_mem s' U = st_mem ex U ∧
         st_mem s' V = st_mem ex V).
Proof.
  destruct (kernels_frame (CF := bit_flags) zeros
              2 1 0.5 (-1) 0.5 0.25 0.5 0.25 0.5 0.5 2 2 ex)%float
    as ((s1 & H1 & Hf1 & _ & Hm1) & (s2 & H2 & Hf2 & _ & Hm2) &
        (s3 & H3 & Hf3 & _ & Hm3) & HT & (s5 & H5 & Hf5 & Hm5));
    [apply ex_wf|lia|lia|].
  destruct HT as (s4 & H4 & Hf4 & _ & Hm4); [intros ? ? ?; eexists; reflexivity|].
  split; [exists s1|split; [exists s2|split; [exists s3|split; [exists s4|exists s5]]]].
  - split; [exact H1|]. split; [exact Hf1|]. repeat split; apply Hm1; discriminate.
  - split; [exact H2|]. split; [exact Hf2|]. repeat split; apply Hm2; discriminate.
  - split; [exact H3|]. split; [exact Hf3|]. repeat split; apply Hm3; discriminate.
  - split; [exact H4|]. split; [exact Hf4|]. repeat split; apply Hm4; discriminate.
  - split; [exact H5|]. split; [exact Hf5|]. repeat split; apply Hm5; discriminate.
Defined.

(** C4 at the example grid. *)
Lemma calculate_T_out_of_bounds_witness :
  rd strict ex U (0 - 1) 0 = None ∧
  (calculate_T strict 2 1 0.25 0.5 0.5 0.5 2 2 ex)%float = None.
Proof.
  destruct (calculate_T_out_of_bounds 2 1 0.25 0.5 0.5 0.5 2 2 ex)%float
    as (_ & Hrd & _ & HT); [lia|lia|].
  split; [exact (proj1 (Hrd U 0 0))|exact HT].
Defined.







(** * Further properties of the kernels *)

(** Two arrays of the same extent with the same cells are the same. *)
Lemma field_ext {A} imax jmax (M M' : field A) :
  has_extent imax jmax M → has_extent imax jmax M' →
  (∀ i j, get M i j = get M' i j) → M = M'.
Proof.
  intros [Hl Hr] [Hl' Hr'] Hget. apply list_eq. intros n.
  destruct (M !! n) as [row|] eqn:Hrow.
  - destruct (lookup_lt_is_Some_2 M' n) as [row' Hrow'].
    { rewrite Hl', <- Hl. by eapply lookup_lt_Some. }
    rewrite Hrow'. f_equal. apply list_eq. intros m.
    specialize (Hget (Z.of_nat n) (Z.of_nat m)). unfold get in Hget.
    rewrite !decide_True in Hget by lia.
    rewrite !Nat2Z.id, Hrow, Hrow' in Hget. exact Hget.
  - symmetry. apply lookup_ge_None. apply lookup_ge_None in Hrow. lia.
Qed.

Lemma get_const_field {A} imax jmax (x : A) i j :
  in_extent imax jmax i j → get (const_field imax jmax x) i j = Some x.
Proof.
  intros [? ?]. unfold get, const_field. rewrite decide_True by lia.
  rewrite lookup_replicate_2 by lia. simpl. apply lookup_replicate_2. lia.
Qed.

Section More.

Context {num : Type} {AR : Arith num} {CF : CellFlags}.
Implicit Types (s : @state num) (A B : array) (i j imax jmax : Z).

Lemma same_state_cells imax jmax As s0 s1 s2 :
  wf imax jmax s1 → wf imax jmax s2 → frame As s0 s1 → frame As s0 s2 →
  (∀ A i j, A ∈ As → cell s2 A i j = cell s1 A i j) →
  same_state s1 s2.
Proof.
  intros [Hw1 _] [Hw2 _] (Hf1 & Hd1 & Hm1) (Hf2 & Hd2 & Hm2) Hc.
  split; [congruence|]. split; [congruence|]. intros A.
  destruct (decide (A ∈ As)) as [Hin|Hin].
  - eapply field_ext; [apply Hw2|apply Hw1|]. intros i j. by apply Hc.
  - by rewrite Hm1, Hm2.
Qed.

Lemma same_state_refl s : same_state s s.
Proof. by repeat split. Qed.

(** X1.  [calculate_fg], [calculate_rs], [calculate_uv] and [calculate_dt]
    never touch a cell outside the arrays: on every well-formed state with
    [imax, jmax >= 1] they have a result when a read outside an array is an
    error, that result is well-formed, and it is the result they have
    whatever the memory around the arrays holds. *)
Theorem kernels_stay_in_bounds (oob : array → Z → Z → option num)
    Re Pr GX GY alpha beta tau dt dx dy imax jmax s :
  wf imax jmax s → 1 ≤ imax → 1 ≤ jmax →
  (∃ s1 s2, calculate_fg strict Re GX GY alpha beta dt dx dy imax jmax s = Some s1 ∧
            calculate_fg oob Re GX GY alpha beta dt dx dy imax jmax s = Some s2 ∧
            wf imax jmax s1 ∧ same_state s1 s2) ∧
  (∃ s1 s2, calculate_rs strict dt dx dy imax jmax s = Some s1 ∧
            calculate_rs oob dt dx dy imax jmax s = Some s2 ∧
            wf imax jmax s1 ∧ same_state s1 s2) ∧
  (∃ s1 s2, calculate_uv strict dt dx dy imax jmax s = Some s1 ∧
            calculate_uv oob dt dx dy imax jmax s = Some s2 ∧
            wf imax jmax s1 ∧ same_state s1 s2) ∧
  (∃ s1 s2, calculate_dt strict Re Pr tau dx dy imax jmax s = Some s1 ∧
            calculate_dt oob Re Pr tau dx dy imax jmax s = Some s2 ∧
            wf imax jmax s1 ∧ same_state s1 s2).
Proof.
  intros Hw Hi Hj. repeat split.
  - destruct (calculate_fg_spec strict imax jmax Re GX GY alpha beta dt dx dy s)
      as (s1 & H1 & Hw1 & Hf1 & HF1 & HG1); [done..|].
    destruct (calculate_fg_spec oob imax jmax Re GX GY alpha beta dt dx dy s)
      as (s2 & H2 & Hw2 & Hf2 & HF2 & HG2); [done..|].
    exists s1, s2. repeat (split; [done|]).
    apply (same_state_cells imax jmax [F; G] s); [done..|].
    intros A i j [->|[->|[]%elem_of_nil]%elem_of_cons]%elem_of_cons.
    + by rewrite HF1, HF2.
    + by rewrite HG1, HG2.
  - destruct (calculate_rs_spec strict imax jmax dt dx dy s)
      as (s1 & H1 & Hw1 & Hf1 & Hc1); [done..|].
    destruct (calculate_rs_spec oob imax jmax dt dx dy s)
      as (s2 & H2 & Hw2 & Hf2 & Hc2); [done..|].
    exists s1, s2. repeat (split; [done|]).
    apply (same_state_cells imax jmax [RS] s); [done..|].
    intros A i j ->%list_elem_of_singleton. by rewrite Hc1, Hc2.
  - destruct (calculate_uv_spec strict imax jmax dt dx dy s)
      as (s1 & H1 & Hw1 & Hf1 & HU1 & HV1); [done..|].
    destruct (calculate_uv_spec oob imax jmax dt dx dy s)
      as (s2 & H2 & Hw2 & Hf2 & HU2 & HV2); [done..|].
    exists s1, s2. repeat (split; [done|]).
    apply (same_state_cells imax jmax [U; V] s); [done..|].
    intros A i j [->|[->|[]%elem_of_nil]%elem_of_cons]%elem_of_cons.
    + by rewrite HU1, HU2.
    + by rewrite HV1, HV2.
  - rewrite !(calculate_dt_spec _ imax jmax) by (done || lia).
    eexists _, _. split; [done|]. split; [done|].
    split; [apply Hw|apply same_state_refl].
Qed.

(** X2.  [calculate_fg], [calculate_rs], [calculate_uv] and [calculate_dt]
    are idempotent: run a second time on their own result, each returns the
    same arrays, flags and time step again. *)
Theorem kernels_idempotent (oob : array → Z → Z → option num)
    Re Pr GX GY alpha beta tau dt dx dy imax jmax s :
  wf imax jmax s → 1 ≤ imax → 1 ≤ jmax →
  (∃ s1 s2, calculate_fg oob Re GX GY alpha beta dt dx dy imax jmax s = Some s1 ∧
            calculate_fg oob Re GX GY alpha beta dt dx dy imax jmax s1 = Some s2 ∧
            same_state s1 s2) ∧
  (∃ s1 s2, calculate_rs oob dt dx dy imax jmax s = Some s1 ∧
            calculate_rs oob dt dx dy imax jmax s1 = Some s2 ∧
            same_state s1 s2) ∧
  (∃ s1 s2, calculate_uv oob dt dx dy imax jmax s = Some s1 ∧
            calculate_uv oob dt dx dy imax jmax s1 = Some s2 ∧
            same_state s1 s2) ∧
  (∃ s1 s2, calculate_dt oob Re Pr tau dx dy imax jmax s = Some s1 ∧
            calculate_dt oob Re Pr tau dx dy imax jmax s1 = Some s2 ∧
            same_state s1 s2).
Proof.
  intros Hw Hi Hj. repeat split.
  - destruct (calculate_fg_spec oob imax jmax Re GX GY alpha beta dt dx dy s)
      as (s1 & H1 & Hw1 & Hf1 & HF1 & HG1); [done..|].
    destruct (calculate_fg_spec oob imax jmax Re GX GY alpha beta dt dx dy s1)
      as (s2 & H2 & Hw2 & Hf2 & HF2 & HG2); [done..|].
    exists s1, s2. repeat (split; [done|]).
    apply (same_state_cells imax jmax [F; G] s1); [done|done|apply frame_refl|done|].
    intros A i j [->|[->|[]%elem_of_nil]%elem_of_cons]%elem_of_cons.
    + rewrite HF2, (F_v_frame [F; G] _ _ _ _ _ _ _ s s1) by (done || notin).
      rewrite (frame_val [F; G] s s1) by (done || notin).
      rewrite (HF1 i j). by repeat case_decide.
    + rewrite HG2, (G_v_frame [F; G] _ _ _ _ _ _ _ s s1) by (done || notin).
      rewrite (frame_val [F; G] s s1) by (done || notin).
      rewrite (HG1 i j). by repeat case_decide.
  - destruct (calculate_rs_spec oob imax jmax dt dx dy s)
      as (s1 & H1 & Hw1 & Hf1 & Hc1); [done..|].
    destruct (calculate_rs_spec oob imax jmax dt dx dy s1)
      as (s2 & H2 & Hw2 & Hf2 & Hc2); [done..|].
    exists s1, s2. repeat (split; [done|]).
    apply (same_state_cells imax jmax [RS] s1); [done|done|apply frame_refl|done|].
    intros A i j ->%list_elem_of_singleton.
    rewrite Hc2, (flag_v_frame [RS] s s1), (rs_v_frame [RS] _ _ _ s s1)
      by (done || notin).
    rewrite (Hc1 i j). case_decide; [|done]. by destruct (isFluid _).
  - destruct (calculate_uv_spec oob imax jmax dt dx dy s)
      as (s1 & H1 & Hw1 & Hf1 & HU1 & HV1); [done..|].
    destruct (calculate_uv_spec oob imax jmax dt dx dy s1)
      as (s2 & H2 & Hw2 & Hf2 & HU2 & HV2); [done..|].
    exists s1, s2. repeat (split; [done|]).
    apply (same_state_cells imax jmax [U; V] s1); [done|done|apply frame_refl|done|].
    intros A i j [->|[->|[]%elem_of_nil]%elem_of_cons]%elem_of_cons.
    + rewrite HU2, (flag_v_frame [U; V] s s1), (u_v_frame [U; V] _ _ s s1)
        by (done || notin).
      rewrite (HU1 i j). case_decide; [|done]. by destruct (_ && _).
    + rewrite HV2, (flag_v_frame [U; V] s s1), (v_v_frame [U; V] _ _ s s1)
        by (done || notin).
      rewrite (HV1 i j). case_decide; [|done]. by destruct (_ && _).
  - rewrite (calculate_dt_spec oob imax jmax) by (done || lia).
    eexists _, _. split; [done|].
    rewrite (calculate_dt_spec oob imax jmax); [|apply Hw|lia..].
    split; [done|]. apply same_state_refl.
Qed.

(** X3.  The footprint of [calculate_fg] and [calculate_rs].  [calculate_fg]
    keeps every cell of [F] outside [0..imax] x [1..jmax] and every cell of
    [G] outside [1..imax] x [0..jmax], and overwrites the cells inside: what
    [F] and [G] held there before has no influence on the result.
    [calculate_rs] keeps every cell of [RS] outside [1..imax] x [1..jmax]. *)
Theorem kernels_footprint (oob : array → Z → Z → option num)
    Re GX GY alpha beta dt dx dy imax jmax s t :
  wf imax jmax s → wf imax jmax t → 1 ≤ imax → 1 ≤ jmax →
  frame [F; G] s t →
  (∃ s' t', calculate_fg oob Re GX GY alpha beta dt dx dy imax jmax s = Some s' ∧
            calculate_fg oob Re GX GY alpha beta dt dx dy imax jmax t = Some t' ∧
            (∀ i j, ¬ (0 ≤ i ≤ imax ∧ 1 ≤ j ≤ jmax) → cell s' F i j = cell s F i j) ∧
            (∀ i j, ¬ (1 ≤ i ≤ imax ∧ 0 ≤ j ≤ jmax) → cell s' G i j = cell s G i j) ∧
            (∀ i j, 0 ≤ i ≤ imax → 1 ≤ j ≤ jmax → cell t' F i j = cell s' F i j) ∧
            (∀ i j, 1 ≤ i ≤ imax → 0 ≤ j ≤ jmax → cell t' G i j = cell s' G i j)) ∧
  (∃ s', calculate_rs oob dt dx dy imax jmax s = Some s' ∧
         ∀ i j, ¬ (1 ≤ i ≤ imax ∧ 1 ≤ j ≤ jmax) → cell s' RS i j = cell s RS i j).
Proof.
  intros Hs Ht Hi Hj Hst. split.
  - destruct (calculate_fg_spec oob imax jmax Re GX GY alpha beta dt dx dy s)
      as (s' & H1 & _ & _ & HF1 & HG1); [done..|].
    destruct (calculate_fg_spec oob imax jmax Re GX GY alpha beta dt dx dy t)
      as (t' & H2 & _ & _ & HF2 & HG2); [done..|].
    exists s', t'. split; [done|]. split; [done|]. repeat split.
    + intros i j Hn. rewrite HF1. unfold swept. cases_cells.
    + intros i j Hn. rewrite HG1. unfold swept. cases_cells.
    + intros i j ? ?. rewrite HF1, HF2.
      rewrite (F_v_frame [F; G] _ _ _ _ _ _ _ s t) by (done || notin).
      rewrite (frame_val [F; G] s t) by (done || notin).
      unfold swept. cases_cells.
    + intros i j ? ?. rewrite HG1, HG2.
      rewrite (G_v_frame [F; G] _ _ _ _ _ _ _ s t) by (done || notin).
      rewrite (frame_val [F; G] s t) by (done || notin).
      unfold swept. cases_cells.
  - destruct (calculate_rs_spec oob imax jmax dt dx dy s)
      as (s' & H1 & _ & _ & Hc); [done..|].
    exists s'. split; [done|]. intros i j Hn. rewrite Hc.
    unfold swept. cases_cells.
Qed.

Lemma max_abs_ext imax jmax s1 s2 A :
  (∀ i j, 0 ≤ i ≤ imax → 0 ≤ j ≤ jmax → cell s1 A i j = cell s2 A i j) →
  max_abs s1 A imax jmax = max_abs s2 A imax jmax.
Proof.
  intros Hc. unfold max_abs.
  assert (∀ (l : list (Z * Z)) (m : num),
    (∀ i j, (i, j) ∈ l → 0 ≤ i ≤ imax ∧ 0 ≤ j ≤ jmax) →
    foldl (λ m '(i, j), max_step m (val s1 A i j)) m l
    = foldl (λ m '(i, j), max_step m (val s2 A i j)) m l) as Hfold.
  { induction l as [|[i j] l IH]; intros m Hl; simpl; [done|].
    rewrite (val_cell s2 s1 A i j).
    - apply IH. intros i' j' ?. apply Hl. by constructor.
    - apply Hc; apply (Hl i j); constructor. }
  apply Hfold. intros i j. apply elem_of_scanned.
Qed.

(** X4.  The time step depends on nothing but the cells of [U] and [V] in
    [0..imax] x [0..jmax]: two well-formed states that agree there get the
    same time step from [calculate_dt], whatever their other arrays, their
    flags and the rows [imax+1] and columns [jmax+1] of [U] and [V] hold. *)
Theorem calculate_dt_reads_scanned_cells (oob1 oob2 : array → Z → Z → option num)
    Re Pr tau dx dy imax jmax s1 s2 :
  wf imax jmax s1 → wf imax jmax s2 → 0 ≤ imax → 0 ≤ jmax →
  (∀ i j, 0 ≤ i ≤ imax → 0 ≤ j ≤ jmax →
          cell s1 U i j = cell s2 U i j ∧ cell s1 V i j = cell s2 V i j) →
  ∃ s1' s2', calculate_dt oob1 Re Pr tau dx dy imax jmax s1 = Some s1' ∧
             calculate_dt oob2 Re Pr tau dx dy imax jmax s2 = Some s2' ∧
             st_dt s1' = st_dt s2'.
Proof.
  intros Hw1 Hw2 Hi Hj Hc.
  rewrite (calculate_dt_spec oob1 imax jmax), (calculate_dt_spec oob2 imax jmax)
    by done.
  eexists _, _. split; [done|]. split; [done|]. simpl.
  rewrite (max_abs_ext imax jmax s1 s2 U), (max_abs_ext imax jmax s1 s2 V);
    [done|intros i j ? ?; by apply Hc..].
Qed.

End More.

(** ** Binary64 arithmetic *)

Section MoreBinary64.

Context {CF : CellFlags}.
Variable oob : array → Z → Z → option float.
Implicit Types (s : @state float) (A : array) (x y : float).

(** X5.  The time step is never negative and never a NaN.  In binary64
    arithmetic, for positive [Re] and [Pr] and positive finite [dx], [dy]
    and [tau], [calculate_dt] stores a number at or above zero, whatever
    the velocity fields hold, NaN and infinite entries included.  (It can
    store zero: the bounds underflow for very small [dx] and [dy].) *)
Theorem calculate_dt_not_negative (Re Pr tau dx dy : float) imax jmax s :
  wf imax jmax s → 0 ≤ imax → 0 ≤ jmax →
  PrimFloat.ltb 0 Re = true → PrimFloat.ltb 0 Pr = true →
  PrimFloat.ltb 0 dx = true → PrimFloat.ltb dx infinity = true →
  PrimFloat.ltb 0 dy = true → PrimFloat.ltb dy infinity = true →
  PrimFloat.ltb 0 tau = true → PrimFloat.ltb tau infinity = true →
  ∃ s', calculate_dt oob Re Pr tau dx dy imax jmax s = Some s' ∧
        PrimFloat.is_nan (st_dt s') = false ∧
        PrimFloat.leb 0 (st_dt s') = true.
Proof.
  intros Hw Hi Hj HRe HPr Hdx Hdxi Hdy Hdyi Htau Htaui.
  rewrite (calculate_dt_spec oob imax jmax) by done.
  eexists. split; [done|]. simpl. unfold dt_v. simpl.
  set (d := (Re * Pr / 2 / (1 / (dx * dx) + 1 / (dy * dy)))%float).
  set (bx := (dx / max_abs s U imax jmax)%float).
  set (by_ := (dy / max_abs s V imax jmax)%float).
  assert (PrimFloat.is_nan bx = false) as Hbx
    by (apply div_positive_finite_not_nan; [done..|];
        apply leb_zero_not_nan, max_abs_nonneg).
  assert (PrimFloat.is_nan (fmin64 d (fmin64 bx by_)) = false) as Hm
    by (apply fmin64_not_nan; right; apply fmin64_not_nan; by left).
  assert (PrimFloat.is_nan (tau * fmin64 d (fmin64 bx by_)) = false) as Hdt
    by (by apply mul_positive_finite_not_nan).
  split; [done|]. apply leb_zero_abs; [done|].
  pose proof (abs_positive _ HRe). pose proof (abs_positive _ HPr).
  pose proof (abs_positive _ Hdx). pose proof (abs_positive _ Hdy).
  pose proof (abs_positive _ Htau).
  pose proof (abs_max_abs s U imax jmax). pose proof (abs_max_abs s V imax jmax).
  apply abs_mul; [done|]. apply abs_fmin64; [|apply abs_fmin64; by apply abs_div].
  subst d. repeat first [apply abs_div | apply abs_mul | apply abs_add | done].
Qed.

(** X11.  A NaN in the velocity fields never reaches the maxima of
    [calculate_dt].  In binary64 arithmetic the comparison
    [fabs (U[i][j]) > u_max] is false for a NaN entry, so the scan skips
    it: on every well-formed state [u_max] and [v_max] are numbers at or
    above zero, and a field that holds nothing but NaN gives the maximum
    zero. *)
Theorem max_velocities_skip_nan imax jmax s :
  wf imax jmax s → 0 ≤ imax → 0 ≤ jmax →
  ∃ u_max v_max : float,
    max_velocities oob imax jmax s = Some (u_max, v_max) ∧
    PrimFloat.leb 0 u_max = true ∧ PrimFloat.is_nan u_max = false ∧
    PrimFloat.leb 0 v_max = true ∧ PrimFloat.is_nan v_max = false ∧
    ((∀ i j, 0 ≤ i ≤ imax → 0 ≤ j ≤ jmax →
             PrimFloat.is_nan (val s U i j) = true) → u_max = 0%float) ∧
    ((∀ i j, 0 ≤ i ≤ imax → 0 ≤ j ≤ jmax →
             PrimFloat.is_nan (val s V i j) = true) → v_max = 0%float).
Proof.
  intros Hw Hi Hj.
  exists (max_abs s U imax jmax), (max_abs s V imax jmax).
  split; [by apply max_velocities_spec|].
  pose proof (max_abs_nonneg s U imax jmax) as HU.
  pose proof (max_abs_nonneg s V imax jmax) as HV.
  split; [done|]. split; [by apply leb_zero_not_nan|].
  split; [done|]. split; [by apply leb_zero_not_nan|]. split.
  - intros Hn. change (max_abs s U imax jmax = c0).
    apply max_abs_zero. intros i j ? ?. simpl. by apply abs_nan_not_above, Hn.
  - intros Hn. change (max_abs s V imax jmax = c0).
    apply max_abs_zero. intros i j ? ?. simpl. by apply abs_nan_not_above, Hn.
Qed.

End MoreBinary64.

(** ** The further properties at the example grids *)

Lemma ex_other_fg_wf : wf 2 2 ex_other_fg.
Proof. split; [intros []|]; extent. Qed.

Lemma ex_other_flags_wf : wf 2 2 ex_other_flags.
Proof. split; [intros []|]; extent. Qed.

Lemma ex_nan_wf : wf 2 2 ex_nan.
Proof. split; [intros []|]; extent. Qed.

(** X1 at the example grid. *)
Lemma kernels_stay_in_bounds_witness :
  (∃ s1 s2, (calculate_fg (CF := bit_flags) strict
               2 0.5 (-1) 0.5 0.25 0.25 0.5 0.5 2 2 ex)%float = Some s1 ∧
            (calculate_fg (CF := bit_flags) zeros
               2 0.5 (-1) 0.5 0.25 0.25 0.5 0.5 2 2 ex)%float = Some s2 ∧
            same_state s1 s2) ∧
  (∃ s1 s2, (calculate_rs (CF := bit_flags) strict 0.25 0.5 0.5 2 2 ex)%float = Some s1 ∧
            (calculate_rs (CF := bit_flags) zeros 0.25 0.5 0.5 2 2 ex)%float = Some s2 ∧
            same_state s1 s2) ∧
  (∃ s1 s2, (calculate_uv (CF := bit_flags) strict 0.25 0.5 0.5 2 2 ex)%float = Some s1 ∧
            (calculate_uv (CF := bit_flags) zeros 0.25 0.5 0.5 2 2 ex)%float = Some s2 ∧
            same_state s1 s2) ∧
  (∃ s1 s2, (calculate_dt strict 2 1 0.5 0.5 0.5 2 2 ex)%float = Some s1 ∧
            (calculate_dt zeros 2 1 0.5 0.5 0.5 2 2 ex)%float = Some s2 ∧
            same_state s1 s2).
Proof.
  destruct (kernels_stay_in_bounds (CF := bit_flags) zeros
              2 1 0.5 (-1) 0.5 0.25 0.5 0.25 0.5 0.5 2 2 ex)%float
    as ((a1 & a2 & Ha1 & Ha2 & _ & Ha) & (b1 & b2 & Hb1 & Hb2 & _ & Hb) &
        (c1 & c2 & Hc1 & Hc2 & _ & Hc) & (d1 & d2 & Hd1 & Hd2 & _ & Hd));
    [apply ex_wf|lia|lia|].
  split; [exists a1, a2|split; [exists b1, b2|split; [exists c1, c2|exists d1, d2]]];
    (split; [assumption|split; assumption]).
Defined.

(** X2 at the example grid. *)
Lemma kernels_idempotent_witness :
  (∃ s1 s2, (calculate_fg (CF := bit_flags) strict
               2 0.5 (-1) 0.5 0.25 0.25 0.5 0.5 2 2 ex)%float = Some s1 ∧
            (calculate_fg (CF := bit_flags) strict
               2 0.5 (-1) 0.5 0.25 0.25 0.5 0.5 2 2 s1)%float = Some s2 ∧
            same_state s1 s2) ∧
  (∃ s1 s2, (calculate_uv (CF := bit_flags) strict 0.25 0.5 0.5 2 2 ex)%float = Some s1 ∧
            (calculate_uv (CF := bit_flags) strict 0.25 0.5 0.5 2 2 s1)%float = Some s2 ∧
            same_state s1 s2).
Proof.
  destruct (kernels_idempotent (CF := bit_flags) strict
              2 1 0.5 (-1) 0.5 0.25 0.5 0.25 0.5 0.5 2 2 ex)%float
    as (Ha & _ & Hc & _); [apply ex_wf|lia|lia|].
  split; assumption.
Defined.

(** X3 at the example grid, against the same grid with other contents in
    [F] and [G]. *)
Lemma kernels_footprint_witness :
  ∃ s' t', (calculate_fg (CF := bit_flags) strict
              2 0.5 (-1) 0.5 0.25 0.25 0.5 0.5 2 2 ex)%float = Some s' ∧
           (calculate_fg (CF := bit_flags) strict
              2 0.5 (-1) 0.5 0.25 0.25 0.5 0.5 2 2 ex_other_fg)%float = Some t' ∧
           cell s' F 3 3 = cell ex F 3 3 ∧ cell s' G 0 0 = cell ex G 0 0 ∧
           cell t' F 1 1 = cell s' F 1 1 ∧ cell t' G 1 1 = cell s' G 1 1.
Proof.
  destruct (kernels_footprint (CF := bit_flags) strict
              2 0.5 (-1) 0.5 0.25 0.25 0.5 0.5 2 2 ex ex_other_fg)%float
    as ((s' & t' & Hs & Ht & HF & HG & HF' & HG') & _);
    [apply ex_wf|apply ex_other_fg_wf|lia|lia| |].
  - split; [reflexivity|]. split; [reflexivity|].
    intros [] HB; try reflexivity; exfalso; apply HB; repeat constructor.
  - exists s', t'. split; [exact Hs|]. split; [exact Ht|].
    split; [apply HF; lia|]. split; [apply HG; lia|].
    split; [apply HF'; lia|apply HG'; lia].
Defined.

(** X4 at the example grid, against the same velocities with other flags,
    pressure and time step. *)
Lemma calculate_dt_reads_scanned_cells_witness :
  ∃ s1' s2', (calculate_dt strict 2 1 0.5 0.5 0.5 2 2 ex)%float = Some s1' ∧
             (calculate_dt zeros 2 1 0.5 0.5 0.5 2 2 ex_other_flags)%float = Some s2' ∧
             st_dt s1' = st_dt s2'.
Proof.
  apply (calculate_dt_reads_scanned_cells strict zeros
           2 1 0.5 0.5 0.5 2 2 ex ex_other_flags)%float;
    [apply ex_wf|apply ex_other_flags_wf|lia|lia|].
  intros i j _ _. split; reflexivity.
Defined.

(** X5 at the example grid with nothing but NaN in [U]. *)
Lemma calculate_dt_not_negative_witness :
  ∃ s', (calculate_dt strict 10 1 0.5 0.125 0.125 2 2 ex_nan)%float = Some s' ∧
        PrimFloat.is_nan (st_dt s') = false ∧
        PrimFloat.leb 0 (st_dt s') = true.
Proof.
  apply (calculate_dt_not_negative strict 10 1 0.5 0.125 0.125 2 2 ex_nan)%float;
    [apply ex_nan_wf|lia|lia|reflexivity..].
Defined.

(** X11 at the example grid with nothing but NaN in [U]: [u_max] is 0. *)
Lemma max_velocities_skip_nan_witness :
  ∃ v_max : float,
    max_velocities strict 2 2 ex_nan = Some (0%float, v_max) ∧
    PrimFloat.is_nan v_max = false.
Proof.
  destruct (max_velocities_skip_nan strict 2 2 ex_nan)
    as (u_max & v_max & Hmax & _ & _ & _ & Hv & Hu & _); [apply ex_nan_wf|lia|lia|].
  rewrite Hu in Hmax.
  - exists v_max. split; [exact Hmax|exact Hv].
  - intros i j ? ?. unfold val.
    change (st_mem ex_nan U) with (const_field 2 2 nan).
    rewrite get_const_field by (unfold in_extent; lia). reflexivity.
Defined.
